(** * IA^3 scale adapter (lycoris/modules/ia3.py): model and properties

    The adapter [IA3Module] wraps one linear or convolutional layer and
    learns one scale per channel.  This development embeds

    - the fragment of torch the module uses (shapes, broadcasting,
      [transpose], [view], [to], [F.linear], [F.conv1d/2d/3d], [F.pad] and
      the forward of nn.ConvNd with its padding_mode),
    - the constructor [__init__], [apply_to], [make_weight],
      [get_diff_weight], [get_merged_weight], [_bypass_forward] and
      [forward],

    and proves what the merge path and the bypass path compute.

    Tensor entries are taken in a structure [Scalar] that has the
    operations of a ring and, by itself, none of its laws: what is proved
    for every [Scalar] holds for the rounded arithmetic of floats, of which
    [F32] is the single-precision instance.  A theorem that needs the laws
    of a commutative ring takes them as a premise; such a theorem is about
    exact arithmetic, which floats follow only where no operation rounds.
    A tensor is its shape, its entries by multi-index and its device;
    strides are not modelled, [view] reads the entries in row-major order
    (every tensor [make_weight] views is contiguous in torch).  Operands of
    a binary operation are taken to live on one device. *)

From Stdlib Require Import String Ascii.
From Stdlib Require Import List Arith ZArith QArith Lia Bool Ring.
From Stdlib Require Import SpecFloat.
Import ListNotations.
Open Scope nat_scope.
Open Scope list_scope.

(** ** Scalars *)

Class Scalar : Type := {
  R : Type;
  rO : R;
  rI : R;
  radd : R -> R -> R;
  rmul : R -> R -> R;
  rsub : R -> R -> R;
  ropp : R -> R
}.

Declare Scope scalar_scope.
Delimit Scope scalar_scope with R.
Infix "+" := radd : scalar_scope.
Infix "*" := rmul : scalar_scope.

(** ** Python exceptions and results *)

Inductive exn : Type :=
| ValueError (msg : string)
| RuntimeError
| IndexError
| AttributeError.

Inductive result (A : Type) : Type :=
| Ok (a : A)
| Raise (e : exn).
Arguments Ok {A} a.
Arguments Raise {A} e.

Definition rbind {A B} (r : result A) (k : A -> result B) : result B :=
  match r with
  | Ok a => k a
  | Raise e => Raise e
  end.

Declare Scope result_scope.
Delimit Scope result_scope with result.
Notation "x <- r ;; k" := (rbind r (fun x => k))
  (at level 61, r at next level, right associativity) : result_scope.

(** ** Shapes and multi-indices *)

Definition numel (s : list nat) : nat := fold_right Nat.mul 1 s.

Fixpoint in_range (s idx : list nat) : bool :=
  match s, idx with
  | [], [] => true
  | d :: s', k :: idx' => (k <? d) && in_range s' idx'
  | _, _ => false
  end.

(** Every index of a shape, in row-major order. *)
Fixpoint all_indices (s : list nat) : list (list nat) :=
  match s with
  | [] => [[]]
  | d :: s' => flat_map (fun k => map (cons k) (all_indices s')) (seq 0 d)
  end.

(** Position of an index in row-major order, and back. *)
Fixpoint ravel (s idx : list nat) : nat :=
  match s, idx with
  | _ :: s', k :: idx' => k * numel s' + ravel s' idx'
  | _, _ => 0
  end.

Fixpoint unravel (s : list nat) (n : nat) : list nat :=
  match s with
  | [] => []
  | _ :: s' => n / numel s' :: unravel s' (n mod numel s')
  end.

(** torch's broadcasting: shapes are aligned on the right, the shorter one
    is padded with 1 on the left, and two sizes agree when they are equal
    or one of them is 1. *)
Definition bdim (x y : nat) : option nat :=
  if x =? y then Some x
  else if x =? 1 then Some y
  else if y =? 1 then Some x
  else None.

Fixpoint bzip (a b : list nat) : option (list nat) :=
  match a, b with
  | [], [] => Some []
  | x :: a', y :: b' =>
      match bdim x y, bzip a' b' with
      | Some d, Some r => Some (d :: r)
      | _, _ => None
      end
  | _, _ => None
  end.

Definition pad_left (n : nat) (s : list nat) : list nat :=
  repeat 1 (n - length s) ++ s.

Definition broadcast_shapes (a b : list nat) : option (list nat) :=
  let n := Nat.max (length a) (length b) in
  bzip (pad_left n a) (pad_left n b).

(** The index an operand of shape [s] is read at, for the index [idx] of
    the broadcast result. *)
Definition bindex (s idx : list nat) : list nat :=
  map (fun dk => if fst dk =? 1 then 0 else snd dk)
      (combine s (skipn (length idx - length s) idx)).

Definition swap01 (l : list nat) : list nat :=
  match l with
  | a :: b :: r => b :: a :: r
  | _ => l
  end.

(** ** Tensors *)

Inductive Device : Type :=
| CPU
| CUDA (index : nat).

Section Tensors.
Context {K : Scalar}.
Local Open Scope scalar_scope.

Record Tensor : Type := mkTensor {
  shape : list nat;
  elem : list nat -> R;
  device : Device
}.

(** Entries in row-major order. *)
Definition to_list (t : Tensor) : list R := map (elem t) (all_indices (shape t)).

Definition of_list (s : list nat) (l : list R) : Tensor :=
  mkTensor s (fun idx => nth (ravel s idx) l rO) CPU.

(** Elementwise equality: same shape, same entry at every index of it. *)
Definition teq (a b : Tensor) : Prop :=
  shape a = shape b /\
  forall idx, in_range (shape a) idx = true -> elem a idx = elem b idx.

(** Two results agree when both return and the tensors are equal entry by
    entry, or both raise the same error. *)
Definition agree (a b : result Tensor) : Prop :=
  match a, b with
  | Ok y, Ok y' => teq y y'
  | Raise e, Raise e' => e = e'
  | _, _ => False
  end.

Definition full (s : list nat) (c : R) : Tensor := mkTensor s (fun _ => c) CPU.

(** torch.empty: the entries are whatever the memory holds. *)
Definition empty (s : list nat) (uninit : list nat -> R) : Tensor :=
  mkTensor s uninit CPU.

(** torch.nn.init.constant_ *)
Definition constant_ (t : Tensor) (c : R) : Tensor :=
  mkTensor (shape t) (fun _ => c) (device t).

Definition broadcast_op (f : R -> R -> R) (a b : Tensor) : result Tensor :=
  match broadcast_shapes (shape a) (shape b) with
  | Some s =>
      Ok (mkTensor s
            (fun idx => f (elem a (bindex (shape a) idx))
                          (elem b (bindex (shape b) idx)))
            (device a))
  | None => Raise RuntimeError
  end.

Definition tmul : Tensor -> Tensor -> result Tensor := broadcast_op rmul.
Definition tadd : Tensor -> Tensor -> result Tensor := broadcast_op radd.

(** tensor * number, tensor + number *)
Definition tmuls (t : Tensor) (c : R) : Tensor :=
  mkTensor (shape t) (fun idx => elem t idx * c) (device t).
Definition tadds (t : Tensor) (c : R) : Tensor :=
  mkTensor (shape t) (fun idx => elem t idx + c) (device t).

(** t.transpose(0, 1) *)
Definition transpose01 (t : Tensor) : result Tensor :=
  match shape t with
  | d0 :: d1 :: s =>
      Ok (mkTensor (d1 :: d0 :: s) (fun idx => elem t (swap01 idx)) (device t))
  | _ => Raise IndexError
  end.

(** t.view(s): same entries in row-major order, under another shape. *)
Definition view (t : Tensor) (s : list nat) : result Tensor :=
  if numel s =? numel (shape t)
  then Ok (mkTensor s (fun idx => elem t (unravel (shape t) (ravel s idx)))
             (device t))
  else Raise RuntimeError.

(** t.to(dev) *)
Definition to (t : Tensor) (dev : Device) : Tensor :=
  mkTensor (shape t) (elem t) dev.

(** int(b) for a Python bool, and an int promoted to a tensor entry. *)
Definition int (b : bool) : Z := if b then 1%Z else 0%Z.

Definition promote (z : Z) : R :=
  match z with
  | Z0 => rO
  | Zpos p => Pos.iter_op radd p rI
  | Zneg p => ropp (Pos.iter_op radd p rI)
  end.

Definition rsum (l : list R) : R := fold_right radd rO l.

End Tensors.

(** ** torch.nn.functional and the wrapped layers *)

Fixpoint shape_eqb (a b : list nat) : bool :=
  match a, b with
  | [], [] => true
  | x :: a', y :: b' => (x =? y) && shape_eqb a' b'
  | _, _ => false
  end.

Fixpoint sequence {A} (l : list (option A)) : option (list A) :=
  match l with
  | [] => Some []
  | Some a :: l' => option_map (cons a) (sequence l')
  | None :: _ => None
  end.

(** The padding_mode of an nn.ConvNd layer. *)
Inductive PaddingMode : Type :=
| Zeros
| Reflect
| Replicate
| Circular.

(** The hyper-parameters of an nn.ConvNd layer, one entry per spatial axis
    in [stride], [padding] and [dilation].  The functional operators take
    the first four; [padding_mode] is read by the layer's own forward
    only. *)
Record ConvKw : Type := mkConvKw {
  stride : list nat;
  padding : list nat;
  dilation : list nat;
  groups : nat;
  padding_mode : PaddingMode
}.

(** The coordinate of the input that F.pad copies to coordinate [q] of an
    axis of size [n] padded by [p] on both sides; [None] where the mode
    writes the constant 0. *)
Definition pad_src (pm : PaddingMode) (n p q : nat) : option nat :=
  match pm with
  | Zeros => if (p <=? q) && (q - p <? n) then Some (q - p) else None
  | Reflect =>
      Some (if q <? p then p - q
            else if q - p <? n then q - p
            else 2 * (n - 1) - (q - p))
  | Replicate => Some (if q <? p then 0 else Nat.min (q - p) (n - 1))
  | Circular => Some ((q + n - p) mod n)
  end.

(** The paddings F.pad accepts: a reflection needs p < n, wrapping around
    p <= n, a replication an axis that is not empty. *)
Definition pad_ok (pm : PaddingMode) (n p : nat) : bool :=
  match pm with
  | Zeros => true
  | Reflect => p <? n
  | Replicate => 1 <=? n
  | Circular => p <=? n
  end.

(** Size of one spatial axis of the output. *)
Definition conv_out_dim (inp k s p d : nat) : option nat :=
  if (s =? 0) || (d =? 0) || (k =? 0) then None
  else if inp + 2 * p <? d * (k - 1) + 1 then None
  else Some ((inp + 2 * p - (d * (k - 1) + 1)) / s + 1).

(** Coordinate of the input read by kernel tap [k] for output position
    [pos]; [None] inside the zero padding. *)
Definition conv_in_pos (inp s p d pos k : nat) : option nat :=
  let q := pos * s + k * d in
  if q <? p then None
  else if q - p <? inp then Some (q - p) else None.

Definition conv_out_shape (sp ks : list nat) (kw : ConvKw) : option (list nat) :=
  sequence
    (map (fun j => conv_out_dim (nth j sp 0) (nth j ks 0) (nth j (stride kw) 0)
                     (nth j (padding kw) 0) (nth j (dilation kw) 0))
         (seq 0 (length ks))).

Definition conv_in_index (sp : list nat) (kw : ConvKw) (pos kidx : list nat)
  : option (list nat) :=
  sequence
    (map (fun j => conv_in_pos (nth j sp 0) (nth j (stride kw) 0)
                     (nth j (padding kw) 0) (nth j (dilation kw) 0)
                     (nth j pos 0) (nth j kidx 0))
         (seq 0 (length sp))).

Section Functional.
Context {K : Scalar}.
Local Open Scope scalar_scope.

Definition unsqueeze0 (t : Tensor) : Tensor :=
  mkTensor (1 :: shape t) (fun idx => elem t (tl idx)) (device t).

Definition squeeze0 (t : Tensor) : Tensor :=
  mkTensor (tl (shape t)) (fun idx => elem t (0 :: idx)) (device t).

Definition bias_ok (b : option Tensor) (o : nat) : bool :=
  match b with
  | None => true
  | Some bt => shape_eqb (shape bt) [o]
  end.

Definition add_bias (b : option Tensor) (o : nat) (v : R) : R :=
  match b with
  | None => v
  | Some bt => v + elem bt [o]
  end.

(** F.linear(x, w, b): x of shape (..., in), w of shape (out, in). *)
Definition F_linear (x w : Tensor) (b : option Tensor) : result Tensor :=
  match shape w, rev (shape x) with
  | [o; i], i' :: _ =>
      if (i =? i') && bias_ok b o
      then Ok (mkTensor (removelast (shape x) ++ [o])
                 (fun idx =>
                    add_bias b (last idx 0)
                      (rsum (map (fun j => elem x (removelast idx ++ [j])
                                           * elem w [last idx 0; j])
                                 (seq 0 i))))
                 (device x))
      else Raise RuntimeError
  | _, _ => Raise RuntimeError
  end.

(** One entry of a convolution with zero padding: the sum, over the
    input channels [c] of the group of [o] and the kernel taps [kidx], of
    input * weight. *)
Definition conv_entry (x w : Tensor) (b : option Tensor) (kw : ConvKw)
    (ig opg : nat) (sp ks : list nat) (idx : list nat) : R :=
  match idx with
  | n :: o :: pos =>
      add_bias b o
        (rsum (map (fun ck =>
                      match ck with
                      | c :: kidx =>
                          match conv_in_index sp kw pos kidx with
                          | Some p => elem x (n :: (o / opg * ig + c)%nat :: p)
                          | None => rO
                          end * elem w (o :: c :: kidx)
                      | [] => rO
                      end)
                   (all_indices (ig :: ks))))
  | _ => rO
  end.

(** Convolution of a batched input (N, C, spatial...) with a weight
    (out, C / groups, kernel...). *)
Definition conv_batched (nd : nat) (x w : Tensor) (b : option Tensor)
    (kw : ConvKw) : result Tensor :=
  match shape w, shape x with
  | o :: ig :: ks, n :: c :: sp =>
      if (length ks =? nd) && (length sp =? nd)
         && (length (stride kw) =? nd) && (length (padding kw) =? nd)
         && (length (dilation kw) =? nd)
         && (1 <=? groups kw) && (c =? ig * groups kw)
         && (o mod groups kw =? 0) && bias_ok b o
      then match conv_out_shape sp ks kw with
           | Some osp =>
               Ok (mkTensor (n :: o :: osp)
                     (conv_entry x w b kw ig (o / groups kw) sp ks)
                     (device x))
           | None => Raise RuntimeError
           end
      else Raise RuntimeError
  | _, _ => Raise RuntimeError
  end.

(** F.conv1d / F.conv2d / F.conv3d: an input without the batch axis is
    given one for the computation and loses it again. *)
Definition F_conv (nd : nat) (x w : Tensor) (b : option Tensor) (kw : ConvKw)
  : result Tensor :=
  if length (shape x) =? nd + 1
  then (y <- conv_batched nd (unsqueeze0 x) w b kw ;; Ok (squeeze0 y))%result
  else conv_batched nd x w b kw.

(** F.pad(x, pad, mode) with the padding [pad] on both sides of each of the
    last [nd] axes (the layer's _reversed_padding_repeated_twice), for an
    input with or without the batch axis. *)
Definition F_pad (nd : nat) (pm : PaddingMode) (pad : list nat) (x : Tensor)
  : result Tensor :=
  let r := length (shape x) in
  let sp := skipn (r - nd) (shape x) in
  if ((r =? nd + 1) || (r =? nd + 2)) && (length pad =? nd)
     && forallb (fun j => pad_ok pm (nth j sp 0) (nth j pad 0)) (seq 0 nd)
  then Ok (mkTensor
             (firstn (r - nd) (shape x)
              ++ map (fun j => (nth j sp 0 + 2 * nth j pad 0)%nat) (seq 0 nd))
             (fun idx =>
                match sequence
                        (map (fun j => pad_src pm (nth j sp 0) (nth j pad 0)
                                         (nth j (skipn (r - nd) idx) 0))
                             (seq 0 nd)) with
                | Some p => elem x (firstn (r - nd) idx ++ p)
                | None => rO
                end)
             (device x))
  else Raise RuntimeError.

(** nn.ConvNd._conv_forward: with a padding_mode other than 'zeros' the
    layer pads the input itself and convolves without padding. *)
Definition conv_forward (nd : nat) (x w : Tensor) (b : option Tensor)
    (kw : ConvKw) : result Tensor :=
  match padding_mode kw with
  | Zeros => F_conv nd x w b kw
  | pm =>
      (xp <- F_pad nd pm (padding kw) x ;;
       F_conv nd xp w b
         (mkConvKw (stride kw) (repeat 0 nd) (dilation kw) (groups kw) Zeros))%result
  end.

Inductive ConvDim : Type := Conv1 | Conv2 | Conv3.

Definition spatial (d : ConvDim) : nat :=
  match d with Conv1 => 1 | Conv2 => 2 | Conv3 => 3 end.

Inductive OtherKind : Type := LayerNormK | GroupNormK | UnknownK.

(** The layers an adapter can be given: nn.Linear, nn.Conv1d/2d/3d, and
    any other module, which brings its own forward. *)
Inductive Layer : Type :=
| Linear (in_features out_features : nat) (weight : Tensor)
         (bias : option Tensor)
| ConvNd (d : ConvDim) (in_channels out_channels : nat) (kw : ConvKw)
         (weight : Tensor) (bias : option Tensor)
| Other (k : OtherKind) (forward : Tensor -> result Tensor).

(** layer.forward *)
Definition layer_forward (l : Layer) (x : Tensor) : result Tensor :=
  match l with
  | Linear _ _ w b => F_linear x w b
  | ConvNd d _ _ kw w b => conv_forward (spatial d) x w b kw
  | Other _ f => f x
  end.

(** Attribute reads; a class without the attribute raises. *)
Definition get_weight (l : Layer) : result Tensor :=
  match l with
  | Linear _ _ w _ | ConvNd _ _ _ _ w _ => Ok w
  | Other _ _ => Raise AttributeError
  end.

Definition get_bias (l : Layer) : result (option Tensor) :=
  match l with
  | Linear _ _ _ b | ConvNd _ _ _ _ _ b => Ok b
  | Other _ _ => Raise AttributeError
  end.

Definition get_in_channels (l : Layer) : result nat :=
  match l with
  | ConvNd _ i _ _ _ _ => Ok i
  | _ => Raise AttributeError
  end.

Definition get_out_channels (l : Layer) : result nat :=
  match l with
  | ConvNd _ _ o _ _ _ => Ok o
  | _ => Raise AttributeError
  end.

Definition get_in_features (l : Layer) : result nat :=
  match l with
  | Linear i _ _ _ => Ok i
  | _ => Raise AttributeError
  end.

Definition get_out_features (l : Layer) : result nat :=
  match l with
  | Linear _ o _ _ => Ok o
  | _ => Raise AttributeError
  end.


(** The parameter shapes torch's constructors give: nn.Linear(in, out) has
    a weight (out, in); nn.ConvNd(in, out, kernel, groups=g) has a weight
    (out, in / g, kernel...) with g dividing in and out, and one stride,
    padding and dilation per spatial axis; a bias has shape (out,). *)
Definition wf_layer (l : Layer) : bool :=
  match l with
  | Linear i o w b => shape_eqb (shape w) [o; i] && bias_ok b o
  | ConvNd d i o kw w b =>
      match shape w with
      | o' :: ig :: ks =>
          (o' =? o) && (1 <=? groups kw) && (i =? ig * groups kw)
          && (o mod groups kw =? 0) && (length ks =? spatial d)
          && (length (stride kw) =? spatial d)
          && (length (padding kw) =? spatial d)
          && (length (dilation kw) =? spatial d) && bias_ok b o
      | _ => false
      end
  | Other _ _ => true
  end.

End Functional.

(** ** The adapter *)

Declare Scope method_scope.
Delimit Scope method_scope with method.

Section Adapter.
Context {K : Scalar}.
Local Open Scope scalar_scope.

(** Modelled from the spec: the base class LycorisBaseModule (base.py) is
    not part of the sources.  Its constructor classifies the wrapped layer
    ([module_type]), picks the functional operator with the layer's keyword
    arguments ([op] called with [kw_dict]), keeps the layer and its forward
    ([org_module], [org_forward]), stores the multiplier, the module
    dropout and the bypass flag; [org_weight] reads the layer's weight. *)
Definition module_type_of (l : Layer) : string :=
  match l with
  | Linear _ _ _ _ => "linear"
  | ConvNd Conv1 _ _ _ _ _ => "conv1d"
  | ConvNd Conv2 _ _ _ _ _ => "conv2d"
  | ConvNd Conv3 _ _ _ _ _ => "conv3d"
  | Other LayerNormK _ => "layernorm"
  | Other GroupNormK _ => "groupnorm"
  | Other UnknownK _ => "unknown"
  end.

(** Modelled from the spec: the operator dispatch of the base class,
    self.op with self.kw_dict applied (F.linear, or F.conv1d/2d/3d with the
    layer's stride, padding, dilation and groups). *)
Definition op_of (l : Layer) (x w : Tensor) (b : option Tensor)
  : result Tensor :=
  match l with
  | Linear _ _ _ _ => F_linear x w b
  | ConvNd d _ _ kw _ _ => F_conv (spatial d) x w b kw
  | Other _ _ => Raise AttributeError
  end.

Record IA3Module : Type := mkIA3 {
  (* set by the base class *)
  lora_name : string;
  org_module : Layer;
  module_type : string;
  op : Tensor -> Tensor -> option Tensor -> result Tensor;
  org_forward : Tensor -> result Tensor;
  module_dropout : Q;
  bypass_mode : bool;
  training : bool;
  (* set by IA3Module.__init__ *)
  lora_dim : nat;
  tucker : bool;
  rs_lora : bool;
  self_shape : list nat;
  isconv : bool;
  weight : Tensor;
  multiplier : R;
  train_input : bool;
  on_input : Z
}.

Definition support_module : list string :=
  ["linear"; "conv1d"; "conv2d"; "conv3d"]%string.

Definition supported (kind : string) : bool :=
  existsb (String.eqb kind) support_module.

Definition unsupported_message (kind : string) : string :=
  (kind ++ " is not supported in IA^3 algo.")%string.

(** IA3Module.__init__.  [uninit] is the content of the memory torch.empty
    hands out.  The arguments the constructor accepts and does not use
    (alpha, dropout, rank_dropout, use_tucker, ...) are left out. *)
Definition init (lora_name : string) (org_module : Layer) (multiplier : R)
    (lora_dim : nat) (module_dropout : Q) (bypass_mode rs_lora : bool)
    (train_on_input : bool) (uninit : list nat -> R) : result IA3Module :=
  let module_type := module_type_of org_module in
  if negb (supported module_type)
  then Raise (ValueError (unsupported_message module_type))
  else
    (w <- get_weight org_module ;;
     let shape := shape w in
     ci <- (if prefix "conv" module_type
            then
              in_dim <- get_in_channels org_module ;;
              out_dim <- get_out_channels org_module ;;
              let train_dim := if train_on_input then in_dim else out_dim in
              Ok (true,
                  empty (1 :: train_dim :: map (fun _ => 1%nat) (skipn 2 shape))
                        uninit)
            else
              in_dim <- get_in_features org_module ;;
              out_dim <- get_out_features org_module ;;
              let train_dim := if train_on_input then in_dim else out_dim in
              Ok (false, empty [train_dim] uninit)) ;;
     let weight := constant_ (snd ci) (promote 0%Z) in
     Ok (mkIA3 lora_name org_module module_type (op_of org_module)
           (layer_forward org_module) module_dropout bypass_mode true
           lora_dim false rs_lora shape (fst ci) weight
           multiplier train_on_input (int train_on_input)))%result.

(** The optimizer step: the entries of the scale vector change, nothing
    else does. *)
Definition set_scale (a : IA3Module) (v : list nat -> R) : IA3Module :=
  mkIA3 (lora_name a) (org_module a) (module_type a) (op a) (org_forward a)
    (module_dropout a) (bypass_mode a) (training a) (lora_dim a) (tucker a)
    (rs_lora a) (self_shape a) (isconv a)
    (mkTensor (shape (weight a)) v (device (weight a)))
    (multiplier a) (train_input a) (on_input a).

(** The entry of the scale vector that the weight's entry [idx] meets
    under broadcasting: that of the input channel (axis 1) when the input
    is scaled, of the output channel (axis 0) otherwise; on a convolution
    the scale vector has shape (1, channels, 1, ..., 1). *)
Definition scale_at (l : Layer) (train_on_input : bool) (idx : list nat)
  : list nat :=
  let c := nth (if train_on_input then 1 else 0) idx 0 in
  match l with
  | ConvNd _ _ _ _ _ _ => 0 :: c :: repeat 0 (length idx - 2)
  | _ => [c]
  end.

(** *** Methods

    A method runs in a world made of the adapter object and the state of
    torch's random generator (the uniform draws in [0,1) still to come),
    and returns or raises. *)
Record World : Type := mkWorld {
  self : IA3Module;
  rng : nat -> Q
}.

Definition Method (A : Type) : Type := World -> result A * World.

Definition ret {A} (a : A) : Method A := fun w => (Ok a, w).

Definition bind {A B} (m : Method A) (k : A -> Method B) : Method B :=
  fun w =>
    match m w with
    | (Ok a, w') => k a w'
    | (Raise e, w') => (Raise e, w')
    end.

Definition lift {A} (r : result A) : Method A := fun w => (r, w).

Definition get_self : Method IA3Module := fun w => (Ok (self w), w).

(** torch.rand(1): the next draw; the generator moves on. *)
Definition rand : Method Q :=
  fun w => (Ok (rng w 0%nat), mkWorld (self w) (fun n => rng w (S n))).

Notation "x <- m ;; k" := (bind m (fun x => k))
  (at level 61, m at next level, right associativity) : method_scope.
Local Open Scope method_scope.

Definition org_weight : Method Tensor :=
  s <- get_self ;; lift (get_weight (org_module s)).

Definition make_weight (multiplier : R) (shape : option (list nat))
    (device : option Device) (diff : bool) : Method Tensor :=
  s <- get_self ;;
  let weight := tadds (tmuls (weight s) multiplier) (promote (int (negb diff))) in
  diff <- (if train_input s
           then ow <- org_weight ;; lift (tmul ow weight)
           else ow <- org_weight ;;
                owt <- lift (transpose01 ow) ;;
                diff <- lift (tmul owt weight) ;;
                lift (transpose01 diff)) ;;
  diff <- match shape with
          | Some sh => lift (view diff sh)
          | None => ret diff
          end ;;
  diff <- match device with
          | Some dev => ret (to diff dev)
          | None => ret diff
          end ;;
  ret diff.

Definition get_diff_weight (multiplier : R) (shape : option (list nat))
    (device : option Device) : Method (Tensor * option Tensor) :=
  diff <- make_weight multiplier shape device true ;;
  ret (diff, None).

Definition get_merged_weight (multiplier : R) (shape : option (list nat))
    (device : option Device) : Method (Tensor * option Tensor) :=
  diff <- make_weight multiplier shape device false ;;
  ret (diff, None).

Definition _bypass_forward (x : Tensor) (scale : R) (diff : bool)
  : Method Tensor :=
  s <- get_self ;;
  let weight := tadds (tmuls (weight s) scale) (promote (int (negb diff))) in
  x <- (if train_input s then lift (tmul x weight) else ret x) ;;
  out <- lift (org_forward s x) ;;
  out <- (if negb (train_input s) then lift (tmul out weight) else ret out) ;;
  ret out.

Definition bypass_forward_diff (x : Tensor) (scale : R) : Method Tensor :=
  _bypass_forward x scale true.

Definition bypass_forward (x : Tensor) (scale : R) : Method Tensor :=
  _bypass_forward x scale false.

(** Truth value of a Python float. *)
Definition truthy (p : Q) : bool := negb (Qeq_bool p 0).

Definition Qltb (p q : Q) : bool := negb (Qle_bool q p).

(** The guard of the dropout skip: lines 124-125 of forward.  The draw is
    made only when module_dropout is set and the adapter is training. *)
Definition dropout_skip : Method bool :=
  s <- get_self ;;
  if truthy (module_dropout s) && training s
  then u <- rand ;; ret (Qltb u (module_dropout s))
  else ret false.

Definition forward (x : Tensor) : Method Tensor :=
  s <- get_self ;;
  skip <- dropout_skip ;;
  if skip then lift (org_forward s x)
  else if bypass_mode s then bypass_forward x (multiplier s)
  else
    wn <- get_merged_weight (multiplier s) None None ;;
    bias <- lift (get_bias (org_module s)) ;;
    lift (op s x (fst wn) bias).

End Adapter.

Notation "x <- m ;; k" := (bind m (fun x => k))
  (at level 61, m at next level, right associativity) : method_scope.

(** ** Attaching the adapter to its layer (apply_to) *)

Section Attach.
Context {K : Scalar}.
Local Open Scope scalar_scope.

(** What a forward attribute refers to: the forward of the layer's class,
    or the bound method [forward] of the adapter. *)
Inductive Callable : Type :=
| ClassForward
| AdapterForward.

(** The adapter and its layer as two objects that refer to each other:
    [org_forward_ref] is self.org_forward, [layer_forward_attr] is
    self.org_module[0].forward.  (The field [org_forward] of the adapter
    record is the function a reference to the class's forward stands for;
    a reference can also point back at the adapter.) *)
Record Attached : Type := mkAttached {
  adapter : IA3Module;
  org_forward_ref : Callable;
  layer_forward_attr : Callable;
  gen : nat -> Q
}.

(** After __init__: both attributes are the class's forward. *)
Definition constructed (a : IA3Module) (g : nat -> Q) : Attached :=
  mkAttached a ClassForward ClassForward g.

(** IA3Module.apply_to *)
Definition apply_to (s : Attached) : Attached :=
  mkAttached (adapter s) (layer_forward_attr s) AdapterForward (gen s).

Definition draw (s : Attached) : Attached :=
  mkAttached (adapter s) (org_forward_ref s) (layer_forward_attr s)
    (fun n => gen s (S n)).

(** Calling a forward attribute.  [depth] is the number of Python frames
    left; [None] is RecursionError, which nothing here catches.  The
    adapter's forward is lines 123-136 with self.org_forward(x) a call
    through the reference. *)
Fixpoint call (depth : nat) (c : Callable) (s : Attached) (x : Tensor)
  : option (result Tensor * Attached) :=
  match depth with
  | O => None
  | S d =>
      match c with
      | ClassForward => Some (layer_forward (org_module (adapter s)) x, s)
      | AdapterForward =>
          let a := adapter s in
          let org_forward := call d (org_forward_ref s) in
          let weight :=
            tadds (tmuls (weight a) (multiplier a))
                  (promote (int (negb false))) in
          let rest (s : Attached) :=
            if bypass_mode a
            then
              if train_input a
              then match tmul x weight with
                   | Ok x' => org_forward s x'
                   | Raise e => Some (Raise e, s)
                   end
              else match org_forward s x with
                   | Some (Ok out, s') => Some (tmul out weight, s')
                   | r => r
                   end
            else
              Some ((wn <- fst (get_merged_weight (multiplier a) None None
                                  (mkWorld a (gen s))) ;;
                     bias <- get_bias (org_module a) ;;
                     op a x (fst wn) bias)%result, s) in
          if truthy (module_dropout a) && training a
          then if Qltb (gen s 0%nat) (module_dropout a)
               then org_forward (draw s) x
               else rest (draw s)
          else rest s
      end
  end.

End Attach.

(** ** Integer entries, and sample layers *)

#[export] Instance ZScalar : Scalar :=
  {| R := Z; rO := 0%Z; rI := 1%Z; radd := Z.add; rmul := Z.mul;
     rsub := Z.sub; ropp := Z.opp |}.

(** ** Single-precision entries

    torch.float32, the dtype of the scale vector and of a layer built
    with torch's defaults: IEEE 754 binary32, every operation rounded to
    the nearest value, ties to even (24 bits of precision, exponents up
    to 128). *)

Definition f32 (z : Z) : spec_float := binary_normalize 24 128 z 0 false.

Definition F32 : Scalar :=
  {| R := spec_float; rO := S754_zero false; rI := f32 1;
     radd := SFadd 24 128; rmul := SFmul 24 128; rsub := SFsub 24 128;
     ropp := SFopp |}.

Module Samples.

Definition unit_kw (nd g : nat) : ConvKw :=
  mkConvKw (repeat 1 nd) (repeat 0 nd) (repeat 1 nd) g Zeros.

(** nn.Linear(3, 2, bias=False) with weight [[1,2,3],[4,5,6]]. *)
Definition lin32 : Layer :=
  Linear 3 2 (of_list [2; 3] [1; 2; 3; 4; 5; 6]%Z) None.


(** nn.Conv1d(2, 2, 2, bias=False): weight of shape (2, 2, 2). *)
Definition conv1d_22 : Layer :=
  ConvNd Conv1 2 2 (unit_kw 1 1)
    (of_list [2; 2; 2] [1; 2; 3; 4; 5; 6; 7; 8]%Z) None.


Definition conv1d_circular : Layer :=
  ConvNd Conv1 2 2 (mkConvKw [1] [1] [1] 1 Circular)
    (of_list [2; 2; 2] [1; 2; 3; 4; 5; 6; 7; 8]%Z) None.

(** nn.Conv1d(4, 4, 1, groups=2, bias=False): weight of shape (4, 2, 1). *)
Definition conv1d_grouped : Layer :=
  ConvNd Conv1 4 4 (unit_kw 1 2)
    (of_list [4; 2; 1] [1; 2; 3; 4; 5; 6; 7; 8]%Z) None.

(** nn.Conv1d(2, 2, 1, groups=2, bias=False): weight of shape (2, 1, 1). *)
Definition conv1d_depthwise : Layer :=
  ConvNd Conv1 2 2 (unit_kw 1 2) (of_list [2; 1; 1] [3; 5]%Z) None.

(** nn.Conv2d(2, 3, (1, 2), bias=False): weight of shape (3, 2, 1, 2). *)
Definition conv2d_23 : Layer :=
  ConvNd Conv2 2 3 (unit_kw 2 1)
    (of_list [3; 2; 1; 2] [1; 2; 3; 4; 5; 6; 7; 8; 9; 10; 11; 12]%Z) None.

(** Content of uninitialised memory. *)
Definition junk : list nat -> Z := fun _ => 7%Z.

(** A generator that always draws 0. *)
Definition zero_draws : nat -> Q := fun _ => 0%Q.

(** A freshly built adapter, then given the scale entries [v]. *)
Definition trained (l : Layer) (train_on_input : bool) (v : list Z)
  : result IA3Module :=
  (a <- init "ia3" l 1%Z 4 0%Q false false train_on_input junk ;;
   Ok (set_scale a (elem (of_list (shape (weight a)) v))))%result.

(** The adapter a successful construction returns. *)
Definition built (r : result IA3Module) : IA3Module :=
  match r with
  | Ok a => a
  | Raise _ =>
      mkIA3 "" (Other UnknownK (fun _ => Raise AttributeError)) ""
        (fun _ _ _ => Raise AttributeError) (fun _ => Raise AttributeError)
        0%Q false false 0 false false [] false (full [] 0%Z) 0%Z false 0%Z
  end.

Definition fresh (l : Layer) (train_on_input : bool) : IA3Module :=
  built (init "ia3" l 1%Z 4 0%Q false false train_on_input junk).

(** The same adapter constructed with bypass_mode=True. *)
Definition fresh_bypass (l : Layer) (train_on_input : bool) : IA3Module :=
  built (init "ia3" l 1%Z 4 0%Q true false train_on_input junk).

(** Inputs: a batch of two rows for [lin32], one sample of four channels
    and two positions for [conv1d_grouped], one sample of two channels and
    three positions for [conv1d_22]. *)
Definition x_lin : Tensor := of_list [2; 3] [1; 2; 3; 4; 5; 6]%Z.
Definition x_grouped : Tensor := of_list [1; 4; 2] [1; 2; 3; 4; 5; 6; 7; 8]%Z.
Definition x_conv : Tensor := of_list [1; 2; 3] [1; 2; 3; 4; 5; 6]%Z.

(** One sample for [conv1d_22] given without the batch axis. *)
Definition x_unbatched : Tensor := of_list [2; 3] [1; 2; 3; 4; 5; 6]%Z.

(** Result of a method, with the tensor shown as shape and entries. *)
Definition show (r : result Tensor) : result (list nat * list Z) :=
  (t <- r ;; Ok (shape t, to_list t))%result.

Definition run_on {A} (a : result IA3Module) (m : Method A) : result A :=
  (s <- a ;; fst (m (mkWorld s zero_draws)))%result.

End Samples.

(** The same layers with float32 entries. *)
Module Single.

Definition tensor (s : list nat) (l : list Z) : @Tensor F32 :=
  @of_list F32 s (map f32 l).

(** nn.Linear(3, 2, bias=False) with weight [[1,2,3],[4,5,6]]. *)
Definition lin32 : @Layer F32 :=
  @Linear F32 3 2 (tensor [2; 3] [1; 2; 3; 4; 5; 6]%Z) None.

(** nn.Linear(1, 1) with weight [[1]] and bias [1]. *)
Definition lin11_bias : @Layer F32 :=
  @Linear F32 1 1 (tensor [1; 1] [1]%Z) (Some (tensor [1] [1]%Z)).

Definition built (r : result (@IA3Module F32)) : @IA3Module F32 :=
  match r with
  | Ok a => a
  | Raise _ =>
      @mkIA3 F32 "" (@Other F32 UnknownK (fun _ => Raise AttributeError)) ""
        (fun _ _ _ => Raise AttributeError) (fun _ => Raise AttributeError)
        0%Q false false 0 false false [] false (tensor [] []) (f32 0) false 0%Z
  end.

(** A freshly built adapter (multiplier 1.0, no dropout, merge mode). *)
Definition fresh (l : @Layer F32) (train_on_input : bool) : @IA3Module F32 :=
  built (@init F32 "ia3" l (f32 1) 4 0%Q false false train_on_input
           (fun _ => f32 0)).

(** The scale vector with every entry 1.0. *)
Definition ones : list nat -> spec_float := fun _ => f32 1.

(** 2^24, above which float32 no longer holds every integer. *)
Definition two24 : spec_float := f32 16777216.

(** The input (0, 0, 1) of nn.Linear(3, 2), as a batch of one row. *)
Definition x_unit : @Tensor F32 := tensor [1; 3] [0; 0; 1]%Z.

End Single.

(** * Properties *)

(** ** Shapes, indices and broadcasting *)

Lemma shape_eqb_eq (a b : list nat) : shape_eqb a b = true <-> a = b.
Proof.
  revert b; induction a as [|x a IH]; intros [|y b]; simpl;
    try (split; (discriminate || reflexivity)).
  rewrite andb_true_iff, Nat.eqb_eq, IH.
  split; [intros [-> ->]; reflexivity | intros H; inversion H; auto].
Qed.

Lemma in_range_length (s idx : list nat) :
  in_range s idx = true -> length idx = length s.
Proof.
  revert idx; induction s as [|d s IH]; intros [|k idx]; simpl;
    try discriminate; auto.
  rewrite andb_true_iff; intros [_ H]; f_equal; auto.
Qed.

Lemma in_range_cons (d k : nat) (s idx : list nat) :
  in_range (d :: s) (k :: idx) = true <-> k < d /\ in_range s idx = true.
Proof. simpl; rewrite andb_true_iff, Nat.ltb_lt; tauto. Qed.

Lemma in_range_2 (o i oo ii : nat) :
  oo < o -> ii < i -> in_range [o; i] [oo; ii] = true.
Proof. intros; rewrite !in_range_cons; auto. Qed.

Lemma in_range_swap01 (s idx : list nat) :
  in_range s idx = true -> in_range (swap01 s) (swap01 idx) = true.
Proof.
  destruct s as [|a [|b s]]; destruct idx as [|i [|j idx]]; simpl; auto;
    try discriminate; rewrite ?andb_false_r; try discriminate.
  destruct (i <? a), (j <? b); simpl; auto.
Qed.

Lemma swap01_involutive (l : list nat) : swap01 (swap01 l) = l.
Proof. destruct l as [|a [|b l]]; reflexivity. Qed.

Lemma bdim_refl (x : nat) : bdim x x = Some x.
Proof. unfold bdim; now rewrite Nat.eqb_refl. Qed.

Lemma bdim_1_r (x : nat) : bdim x 1 = Some x.
Proof. unfold bdim; destruct (x =? 1) eqn:E; simpl; auto. Qed.

Lemma bdim_1_l (y : nat) : bdim 1 y = Some y.
Proof.
  unfold bdim; destruct (1 =? y) eqn:E; simpl; auto.
  apply Nat.eqb_eq in E; now subst.
Qed.

Lemma bdim_absorb (x y d : nat) : bdim x y = Some d -> bdim x d = Some d.
Proof.
  unfold bdim; destruct (x =? y) eqn:E1.
  - intros [= ?]; subst; now rewrite ?Nat.eqb_refl.
  - destruct (x =? 1) eqn:E2.
    + intros [= ?]; subst; now rewrite ?E1.
    + destruct (y =? 1); [|discriminate].
      intros [= ?]; subst; now rewrite ?Nat.eqb_refl.
Qed.

Lemma bzip_refl (s : list nat) : bzip s s = Some s.
Proof. induction s as [|d s IH]; simpl; [|rewrite bdim_refl, IH]; auto. Qed.

Lemma bzip_ones_r (s : list nat) : bzip s (map (fun _ => 1) s) = Some s.
Proof. induction s as [|d s IH]; simpl; [|rewrite bdim_1_r, IH]; auto. Qed.

Lemma bzip_length (a b c : list nat) :
  bzip a b = Some c -> length a = length c /\ length b = length c.
Proof.
  revert b c; induction a as [|x a IH]; intros [|y b] c; simpl;
    try discriminate.
  - intros [= <-]; auto.
  - destruct (bdim x y); [|discriminate].
    destruct (bzip a b) as [r|] eqn:E; [|discriminate].
    intros [= <-]; destruct (IH _ _ E); simpl; auto.
Qed.

Lemma bzip_absorb (a b c : list nat) : bzip a b = Some c -> bzip a c = Some c.
Proof.
  revert b c; induction a as [|x a IH]; intros [|y b] c; simpl;
    try discriminate.
  { intros [= <-]; reflexivity. }
  destruct (bdim x y) as [d|] eqn:Ed; [|discriminate].
  destruct (bzip a b) as [r|] eqn:E; [|discriminate].
  intros [= <-]; simpl.
  now rewrite (bdim_absorb _ _ _ Ed), (IH _ _ E).
Qed.

Lemma pad_left_length (n : nat) (s : list nat) :
  length s <= n -> length (pad_left n s) = n.
Proof. intros H; unfold pad_left; rewrite length_app, repeat_length; lia. Qed.

Lemma pad_left_full (s : list nat) : pad_left (length s) s = s.
Proof. unfold pad_left; now rewrite Nat.sub_diag. Qed.

Lemma broadcast_shapes_same_length (a b : list nat) :
  length a = length b -> broadcast_shapes a b = bzip a b.
Proof.
  intros H; unfold broadcast_shapes.
  rewrite <- H, Nat.max_id, pad_left_full.
  now rewrite H, pad_left_full.
Qed.

Lemma broadcast_shapes_length (a b c : list nat) :
  broadcast_shapes a b = Some c -> length c = Nat.max (length a) (length b).
Proof.
  unfold broadcast_shapes; intros H.
  apply bzip_length in H as [H _].
  rewrite pad_left_length in H by lia; auto.
Qed.

Lemma broadcast_shapes_absorb (a b c : list nat) :
  broadcast_shapes a b = Some c -> broadcast_shapes a c = Some c.
Proof.
  intros H; pose proof (broadcast_shapes_length _ _ _ H) as L.
  unfold broadcast_shapes in *.
  replace (Nat.max (length a) (length c)) with (length c) by lia.
  rewrite pad_left_full, L.
  now apply bzip_absorb with (b := pad_left (Nat.max (length a) (length b)) b).
Qed.

Lemma bindex_in_range (s idx : list nat) :
  in_range s idx = true -> bindex s idx = idx.
Proof.
  intros H; unfold bindex.
  rewrite (in_range_length _ _ H), Nat.sub_diag; simpl.
  revert idx H; induction s as [|d s IH]; intros [|k idx]; simpl;
    try discriminate; auto.
  rewrite andb_true_iff, Nat.ltb_lt; intros [Hk H].
  rewrite (IH _ H); destruct (d =? 1) eqn:E; auto.
  apply Nat.eqb_eq in E; f_equal; lia.
Qed.

Lemma map_const_repeat {A} (c : A) (l : list nat) :
  map (fun _ => c) l = repeat c (length l).
Proof. induction l; simpl; congruence. Qed.

(** ** The constructor *)

Section Construction.
Context {K : Scalar}.

Lemma wf_linear_inv i o (w : Tensor) b :
  wf_layer (Linear i o w b) = true -> shape w = [o; i] /\ bias_ok b o = true.
Proof.
  cbn; rewrite andb_true_iff, shape_eqb_eq; tauto.
Qed.

Lemma wf_conv_inv d i o kw (w : Tensor) b :
  wf_layer (ConvNd d i o kw w b) = true ->
  exists ig ks,
    shape w = o :: ig :: ks /\ 1 <= groups kw /\ i = ig * groups kw
    /\ o mod groups kw = 0 /\ length ks = spatial d
    /\ length (stride kw) = spatial d /\ length (padding kw) = spatial d
    /\ length (dilation kw) = spatial d /\ bias_ok b o = true.
Proof.
  unfold wf_layer; destruct (shape w) as [|o' [|ig ks]]; try discriminate.
  rewrite !andb_true_iff, !Nat.eqb_eq, Nat.leb_le.
  intros [[[[[[[[-> ?] ?] ?] ?] ?] ?] ?] ?]; exists ig, ks; tauto.
Qed.

(** What a successful construction returns: the layer is an nn.Linear or an
    nn.ConvNd, and every field is determined by the arguments. *)
Lemma init_inv nm l mu ld md bp rs ti un a :
  init nm l mu ld md bp rs ti un = Ok a ->
  match l with
  | Linear i o w _ =>
      a = mkIA3 nm l "linear" (op_of l) (layer_forward l) md bp true ld false
            rs (shape w) false
            (constant_ (empty [if ti then i else o] un) rO) mu ti (int ti)
  | ConvNd d i o _ w _ =>
      a = mkIA3 nm l (module_type_of l) (op_of l) (layer_forward l) md bp true
            ld false rs (shape w) true
            (constant_
               (empty (1 :: (if ti then i else o)
                         :: map (fun _ => 1) (skipn 2 (shape w))) un) rO)
            mu ti (int ti)
  | Other _ _ => False
  end.
Proof.
  destruct l as [i o w b|d i o kw w b|k f]; unfold init.
  - cbn. intros [= <-]. reflexivity.
  - destruct d; cbn; intros [= <-]; reflexivity.
  - destruct k; cbn; discriminate.
Qed.

Lemma supported_iff (kind : string) :
  supported kind = true <->
  In kind ["linear"; "conv1d"; "conv2d"; "conv3d"]%string.
Proof.
  unfold supported, support_module; rewrite existsb_exists; split.
  - intros [s [Hs E]]; apply String.eqb_eq in E; now subst.
  - intros H; exists kind; split; [exact H | apply String.eqb_refl].
Qed.

(** C7.  Construction raises exactly when the kind of the wrapped layer is
    not one of linear, conv1d, conv2d, conv3d: on a supported kind the
    constructor returns an adapter, on any other kind it returns (from the
    constructor call itself) a ValueError whose message starts with the
    name of the kind. *)
Theorem init_raises_iff_unsupported nm l mu ld md bp rs ti un :
  let kind := module_type_of l in
  match init nm l mu ld md bp rs ti un with
  | Ok _ => In kind ["linear"; "conv1d"; "conv2d"; "conv3d"]%string
  | Raise e =>
      ~ In kind ["linear"; "conv1d"; "conv2d"; "conv3d"]%string
      /\ e = ValueError (kind ++ " is not supported in IA^3 algo.")
      /\ prefix kind (kind ++ " is not supported in IA^3 algo.") = true
  end.
Proof.
  destruct l as [i o w b|d i o kw w b|k f]; [|destruct d|destruct k]; cbn;
    try tauto;
    (split; [|split; reflexivity]);
    intros H; repeat (destruct H as [H|H]; [discriminate|]); exact H.
Qed.

(** C9.  After a successful construction the scale vector has shape
    (train_dim,) on a linear layer and (1, train_dim, 1, ..., 1), one 1 per
    spatial axis, on a convolution, where train_dim is the number of input
    features or channels when the input is scaled and of output features or
    channels otherwise; every entry is zero; and [on_input] holds
    int(train_on_input) next to the vector. *)
Theorem init_scale_vector nm l mu ld md bp rs ti un a :
  wf_layer l = true ->
  init nm l mu ld md bp rs ti un = Ok a ->
  shape (weight a) =
    match l with
    | Linear i o _ _ => [if ti then i else o]
    | ConvNd d i o _ _ _ => 1 :: (if ti then i else o) :: repeat 1 (spatial d)
    | Other _ _ => []
    end
  /\ (forall idx, elem (weight a) idx = rO)
  /\ train_input a = ti
  /\ on_input a = (if ti then 1 else 0)%Z.
Proof.
  intros Hwf Hinit; apply init_inv in Hinit.
  destruct l as [i o w b|d i o kw w b|k f]; [| |contradiction]; subst a; cbn.
  - repeat split; destruct ti; reflexivity.
  - repeat split; try (destruct ti; reflexivity).
    cbn in Hwf. destruct (shape w) as [|o' [|ig ks]]; try discriminate.
    rewrite !andb_true_iff in Hwf.
    destruct Hwf as [[[[[[[[_ _] _] _] Hks] _] _] _] _].
    apply Nat.eqb_eq in Hks. cbn. now rewrite map_const_repeat, Hks.
Qed.

End Construction.

(** ** Running the methods *)

Section Running.
Context {K : Scalar}.
Local Open Scope scalar_scope.

(** The scale the methods multiply by: [weight * multiplier + int(not diff)]. *)
Lemma promote_int (b : bool) : promote (int b) = if b then rI else rO.
Proof. destruct b; reflexivity. Qed.

(** [make_weight] reads the world and leaves it as it is; its value is the
    result of the tensor operations of its body, run in order. *)
Lemma make_weight_run m sh dev diff w :
  make_weight m sh dev diff w =
  (let eff := tadds (tmuls (weight (self w)) m) (promote (int (negb diff))) in
   (ow <- get_weight (org_module (self w)) ;;
    d <- (if train_input (self w) then tmul ow eff
          else owt <- transpose01 ow ;; p <- tmul owt eff ;; transpose01 p) ;;
    d <- match sh with Some s => view d s | None => Ok d end ;;
    Ok (match dev with Some dv => to d dv | None => d end))%result,
   w).
Proof.
  unfold make_weight, org_weight, bind, lift, ret, get_self; cbn.
  destruct (train_input (self w)); cbn;
    destruct (get_weight (org_module (self w))) as [ow|e]; cbn; auto.
  - destruct (tmul ow _) as [d|e]; cbn; auto.
    destruct sh as [s|]; cbn; [destruct (view d s); cbn|]; auto;
      destruct dev; reflexivity.
  - destruct (transpose01 ow) as [owt|e]; cbn; auto.
    destruct (tmul owt _) as [p|e]; cbn; auto.
    destruct (transpose01 p) as [d|e]; cbn; auto.
    destruct sh as [s|]; cbn; [destruct (view d s); cbn|]; auto;
      destruct dev; reflexivity.
Qed.

Lemma rbind_ret {A} (r : result A) : (a <- r ;; Ok a)%result = r.
Proof. destruct r; reflexivity. Qed.

(** Without a target shape and device. *)
Lemma make_weight_plain m diff w :
  fst (make_weight m None None diff w) =
  (let eff := tadds (tmuls (weight (self w)) m) (promote (int (negb diff))) in
   ow <- get_weight (org_module (self w)) ;;
   if train_input (self w) then tmul ow eff
   else owt <- transpose01 ow ;; p <- tmul owt eff ;; transpose01 p)%result.
Proof.
  rewrite make_weight_run; cbn.
  destruct (get_weight (org_module (self w))) as [ow|e]; cbn; auto.
  now rewrite !rbind_ret.
Qed.

(** With a target shape and device: the plain result, viewed and moved. *)
Lemma make_weight_args m sh dev diff w :
  fst (make_weight m sh dev diff w) =
  (base <- fst (make_weight m None None diff w) ;;
   d <- match sh with Some s => view base s | None => Ok base end ;;
   Ok (match dev with Some dv => to d dv | None => d end))%result.
Proof.
  rewrite make_weight_plain, make_weight_run; cbn.
  destruct (get_weight (org_module (self w))) as [ow|e]; cbn; auto.
Qed.

Lemma get_merged_weight_run m sh dev w :
  get_merged_weight m sh dev w =
  ((d <- fst (make_weight m sh dev false w) ;; Ok (d, None))%result, w).
Proof.
  unfold get_merged_weight, bind, ret; rewrite make_weight_run; cbn.
  match goal with |- context [match ?r with Ok _ => _ | Raise _ => _ end] =>
    destruct r end; reflexivity.
Qed.

Lemma get_diff_weight_run m sh dev w :
  get_diff_weight m sh dev w =
  ((d <- fst (make_weight m sh dev true w) ;; Ok (d, None))%result, w).
Proof.
  unfold get_diff_weight, bind, ret; rewrite make_weight_run; cbn.
  match goal with |- context [match ?r with Ok _ => _ | Raise _ => _ end] =>
    destruct r end; reflexivity.
Qed.

Lemma bypass_forward_run x scale diff w :
  _bypass_forward x scale diff w =
  (let eff := tadds (tmuls (weight (self w)) scale) (promote (int (negb diff))) in
   (if train_input (self w)
    then x' <- tmul x eff ;; org_forward (self w) x'
    else out <- org_forward (self w) x ;; tmul out eff)%result,
   w).
Proof.
  unfold _bypass_forward, bind, lift, ret, get_self; cbn.
  destruct (train_input (self w)); cbn.
  - destruct (tmul x _) as [x'|e]; cbn; auto.
    destruct (org_forward (self w) x'); reflexivity.
  - destruct (org_forward (self w) x) as [out|e]; cbn; auto.
    destruct (tmul out _); reflexivity.
Qed.

End Running.

(** ** Weight materialisation *)

Section Materialisation.
Context {K : Scalar}.
Hypothesis Kring : ring_theory rO rI radd rmul rsub ropp (@eq R).
Add Ring Kring_ring : Kring.
Local Open Scope scalar_scope.
Local Arguments bindex : simpl never.
Local Arguments broadcast_shapes : simpl never.
Local Arguments in_range : simpl never.

(** Scaling the output side: transpose, multiply, transpose back. *)
Lemma out_scaled (W sc : Tensor) (m c : R) (o i : nat) (ks : list nat) :
  shape W = o :: i :: ks ->
  broadcast_shapes (i :: o :: ks) (shape sc) = Some (i :: o :: ks) ->
  (owt <- transpose01 W ;;
   p <- tmul owt (tadds (tmuls sc m) c) ;;
   transpose01 p)%result
  = Ok (mkTensor (o :: i :: ks)
          (fun idx => elem W (swap01 (bindex (i :: o :: ks) (swap01 idx)))
                      * (elem sc (bindex (shape sc) (swap01 idx)) * m + c))
          (device W)).
Proof.
  intros HW Hb; unfold transpose01 at 1; rewrite HW; cbn.
  unfold tmul, broadcast_op; cbn; rewrite Hb; cbn.
  reflexivity.
Qed.

Lemma out_scaled_entry (W : Tensor) (o i : nat) (ks idx : list nat) :
  in_range (o :: i :: ks) idx = true ->
  elem W (swap01 (bindex (i :: o :: ks) (swap01 idx))) = elem W idx.
Proof.
  intros H; rewrite bindex_in_range
    by exact (in_range_swap01 (o :: i :: ks) idx H).
  now rewrite swap01_involutive.
Qed.

(** The shapes the constructor gives the scale vector broadcast against
    the (transposed) weight. *)
Lemma broadcast_linear (a b : nat) : broadcast_shapes [a; b] [b] = Some [a; b].
Proof. unfold broadcast_shapes; cbn; now rewrite bdim_1_r, bdim_refl. Qed.

Lemma broadcast_conv (a b : nat) (ks : list nat) :
  broadcast_shapes (a :: b :: ks) (1 :: b :: map (fun _ => 1) ks)
  = Some (a :: b :: ks).
Proof.
  rewrite broadcast_shapes_same_length by (cbn; now rewrite length_map).
  cbn; now rewrite bdim_1_r, bdim_refl, bzip_ones_r.
Qed.

(** The entry of the scale vector an index of the weight meets. *)
Lemma bindex_scale_linear (td a t : nat) : t < td -> bindex [td] [a; t] = [t].
Proof.
  intros H; unfold bindex; cbn.
  destruct (td =? 1) eqn:E; auto.
  apply Nat.eqb_eq in E; f_equal; lia.
Qed.

Lemma bindex_ones (ks kk : list nat) :
  length kk = length ks ->
  map (fun dk : nat * nat => if fst dk =? 1 then 0 else snd dk)
      (combine (map (fun _ => 1) ks) kk) = repeat 0 (length kk).
Proof.
  revert kk; induction ks as [|k ks IH]; intros [|x kk]; cbn; try discriminate;
    auto.
  intros [= H]; now rewrite IH.
Qed.

Lemma bindex_scale_conv (td a t : nat) (ks kk : list nat) :
  length kk = length ks -> t < td ->
  bindex (1 :: td :: map (fun _ => 1) ks) (a :: t :: kk)
  = 0 :: t :: repeat 0 (length kk).
Proof.
  intros L H; unfold bindex; cbn [length].
  rewrite length_map, L, Nat.sub_diag; cbn.
  rewrite (bindex_ones ks kk L), L.
  destruct (td =? 1) eqn:E; auto.
  apply Nat.eqb_eq in E; do 2 f_equal; lia.
Qed.

(** C3.  [make_weight] forms effective = scale * multiplier + (0 for a
    diff, 1 for a merged weight); when the input is scaled it multiplies the
    layer's weight by it directly, otherwise it transposes axes 0 and 1,
    multiplies and transposes back.  On the entries: the weight at
    (out, in, ...) is multiplied by the effective scale of channel [in] in
    the first case and of channel [out] in the second. *)
Theorem make_weight_scales_channel nm l mu ld md bp rs (ti : bool) un a0 v m
    (diff : bool) g :
  wf_layer l = true ->
  init nm l mu ld md bp rs ti un = Ok a0 ->
  let w := mkWorld (set_scale a0 v) g in
  let c := if diff then rO else rI in
  let eff := tadds (tmuls (weight (self w)) m) c in
  fst (make_weight m None None diff w)
  = (ow <- get_weight l ;;
     if ti then tmul ow eff
     else owt <- transpose01 ow ;; p <- tmul owt eff ;; transpose01 p)%result
  /\ match l with
     | Linear i o W _ =>
         exists M, fst (make_weight m None None diff w) = Ok M
           /\ shape M = [o; i]
           /\ forall oo ii, oo < o -> ii < i ->
                elem M [oo; ii]
                = elem W [oo; ii] * (v [if ti then ii else oo] * m + c)
     | ConvNd _ i o kw W _ =>
         ti = false \/ groups kw = 1 ->
         exists M, fst (make_weight m None None diff w) = Ok M
           /\ shape M = shape W
           /\ forall oo ii kk, in_range (shape W) (oo :: ii :: kk) = true ->
                elem M (oo :: ii :: kk)
                = elem W (oo :: ii :: kk)
                  * (v (0 :: (if ti then ii else oo) :: repeat 0 (length kk))
                     * m + c)
     | Other _ _ => True
     end.
Proof.
  intros Hwf Hinit w c eff; subst w c eff; apply init_inv in Hinit.
  rewrite make_weight_plain.
  destruct l as [i o W b|d i o kw W b|k f]; [| |contradiction]; subst a0.
  - apply wf_linear_inv in Hwf as [HW _]; cbn.
    split.
    { destruct diff, ti; cbn; reflexivity. }
    rewrite promote_int; replace (if negb diff then rI else rO)
      with (if diff then rO else rI) by now destruct diff.
    destruct ti; cbn.
    + unfold tmul, broadcast_op; cbn. rewrite HW, broadcast_linear.
      eexists; split; [reflexivity|]; split; [reflexivity|]; cbn.
      intros oo ii Ho Hi.
      rewrite bindex_in_range by now apply in_range_2.
      rewrite bindex_scale_linear by auto.
      reflexivity.
    + rewrite (out_scaled W (mkTensor [o] v CPU) m _ o i [] HW
                 (broadcast_linear i o)).
      eexists; split; [reflexivity|]; split; [reflexivity|]; cbn [elem shape].
      intros oo ii Ho Hi.
      rewrite out_scaled_entry by now apply in_range_2.
      cbn [swap01]. rewrite bindex_scale_linear by auto.
      reflexivity.
  - apply wf_conv_inv in Hwf as [ig [ks [HW [Hg [Hi _]]]]]; cbn.
    split.
    { destruct diff, ti; cbn; rewrite HW; reflexivity. }
    rewrite promote_int, HW; cbn [skipn].
    replace (if negb diff then rI else rO)
      with (if diff then rO else rI) by now destruct diff.
    intros Hcfg; destruct ti; cbn.
    + destruct Hcfg as [?|E]; [discriminate|].
      rewrite E, Nat.mul_1_r in Hi; subst ig.
      unfold tmul, broadcast_op; cbn. rewrite HW, broadcast_conv.
      eexists; split; [reflexivity|]; split; [reflexivity|]; cbn [elem shape].
      intros oo ii kk Hidx.
      rewrite (bindex_in_range _ _ Hidx).
      pose proof (in_range_length _ _ Hidx) as L.
      apply in_range_cons in Hidx as [_ Hidx].
      apply in_range_cons in Hidx as [Hii _].
      rewrite bindex_scale_conv by (cbn in L; lia || auto).
      reflexivity.
    + rewrite (out_scaled W (mkTensor (1 :: o :: map (fun _ => 1) ks) v CPU)
                 m _ o ig ks HW (broadcast_conv ig o ks)).
      eexists; split; [reflexivity|]; split; [reflexivity|]; cbn [elem shape].
      intros oo ii kk Hidx.
      rewrite (out_scaled_entry W o ig ks _ Hidx).
      pose proof (in_range_length _ _ Hidx) as L.
      apply in_range_cons in Hidx as [Hoo _].
      cbn [swap01]. rewrite bindex_scale_conv by (cbn in L; lia || auto).
      reflexivity.
Qed.



End Materialisation.

(** ** The merged weight against weight + diff *)

Section RingLaws.
Context {K : Scalar}.
Hypothesis Kring : ring_theory rO rI radd rmul rsub ropp (@eq R).
Add Ring Kring_laws : Kring.
Local Open Scope scalar_scope.

(** Where the arithmetic of the entries is exact, scaling by e + 1 is
    adding the scaling by e + 0. *)
Lemma scaled_plus_one (a e : R) : a * (e + rI) = a + a * (e + rO).
Proof. ring. Qed.

End RingLaws.

Lemma broadcast_shapes_refl (s : list nat) : broadcast_shapes s s = Some s.
Proof. rewrite broadcast_shapes_same_length by reflexivity; apply bzip_refl. Qed.

Section MergedAndDiff.
Context {K : Scalar}.
Local Open Scope scalar_scope.
Local Arguments bindex : simpl never.
Local Arguments broadcast_shapes : simpl never.
Local Arguments in_range : simpl never.

(** The entries [make_weight] returns, with the operations of the entries
    as they are (no law of arithmetic is used). *)
Lemma make_weight_entries nm l mu ld md bp rs (ti : bool) un a0 v m
    (diff : bool) g :
  wf_layer l = true ->
  init nm l mu ld md bp rs ti un = Ok a0 ->
  match l with
  | ConvNd _ _ _ kw _ _ => ti = false \/ groups kw = 1
  | _ => True
  end ->
  exists W M,
    get_weight l = Ok W
    /\ fst (make_weight m None None diff (mkWorld (set_scale a0 v) g)) = Ok M
    /\ shape M = shape W
    /\ forall idx, in_range (shape W) idx = true ->
         elem M idx
         = elem W idx * (v (scale_at l ti idx) * m + (if diff then rO else rI)).
Proof.
  intros Hwf Hinit Hcfg; apply init_inv in Hinit.
  rewrite make_weight_plain.
  destruct l as [i o W b|d i o kw W b|k f]; [| |contradiction]; subst a0;
    exists W.
  - apply wf_linear_inv in Hwf as [HW _]; cbn.
    rewrite promote_int; replace (if negb diff then rI else rO)
      with (if diff then rO else rI) by now destruct diff.
    assert (Hidx2 : forall idx, in_range [o; i] idx = true ->
              exists oo ii, idx = [oo; ii] /\ oo < o /\ ii < i).
    { intros idx Hidx.
      pose proof (in_range_length _ _ Hidx) as L.
      destruct idx as [|oo [|ii [|? ?]]]; try discriminate L.
      apply in_range_cons in Hidx as [Ho Hidx].
      apply in_range_cons in Hidx as [Hi _]; eauto. }
    destruct ti; cbn.
    + unfold tmul, broadcast_op; cbn. rewrite HW, broadcast_linear.
      eexists; split; [reflexivity|]; split; [reflexivity|].
      split; [reflexivity|]; cbn [elem shape].
      intros idx Hidx; rewrite ?HW in Hidx.
      destruct (Hidx2 idx Hidx) as [oo [ii [-> [Ho Hi]]]].
      rewrite bindex_in_range by now apply in_range_2.
      rewrite bindex_scale_linear by auto.
      reflexivity.
    + rewrite (out_scaled W (mkTensor [o] v CPU) m _ o i [] HW
                 (broadcast_linear i o)).
      eexists; split; [reflexivity|]; split; [reflexivity|].
      split; [now rewrite HW|]; cbn [elem shape].
      intros idx Hidx; rewrite ?HW in Hidx.
      destruct (Hidx2 idx Hidx) as [oo [ii [-> [Ho Hi]]]].
      rewrite out_scaled_entry by now apply in_range_2.
      cbn [swap01]. rewrite bindex_scale_linear by auto.
      reflexivity.
  - apply wf_conv_inv in Hwf as [ig [ks [HW [Hg [Hi _]]]]]; cbn.
    rewrite promote_int, HW; cbn [skipn].
    replace (if negb diff then rI else rO)
      with (if diff then rO else rI) by now destruct diff.
    assert (Hidx3 : forall idx, in_range (o :: ig :: ks) idx = true ->
              exists oo ii kk, idx = oo :: ii :: kk /\ oo < o /\ ii < ig
                               /\ length kk = length ks).
    { intros idx Hidx.
      pose proof (in_range_length _ _ Hidx) as L.
      destruct idx as [|oo [|ii kk]]; try discriminate L.
      apply in_range_cons in Hidx as [Ho Hidx].
      apply in_range_cons in Hidx as [Hii _].
      exists oo, ii, kk; cbn in L; repeat split; auto; lia. }
    destruct ti; cbn.
    + destruct Hcfg as [?|E]; [discriminate|].
      rewrite E, Nat.mul_1_r in Hi; subst ig.
      unfold tmul, broadcast_op; cbn. rewrite HW, broadcast_conv.
      eexists; split; [reflexivity|]; split; [reflexivity|].
      split; [reflexivity|]; cbn [elem shape].
      intros idx Hidx; rewrite ?HW in Hidx.
      destruct (Hidx3 idx Hidx) as [oo [ii [kk [-> [Ho [Hii L]]]]]].
      rewrite (bindex_in_range _ _ Hidx).
      rewrite bindex_scale_conv by auto.
      unfold scale_at; cbn [nth length Nat.sub]; rewrite Nat.sub_0_r.
      reflexivity.
    + rewrite (out_scaled W (mkTensor (1 :: o :: map (fun _ => 1) ks) v CPU)
                 m _ o ig ks HW (broadcast_conv ig o ks)).
      eexists; split; [reflexivity|]; split; [reflexivity|].
      split; [reflexivity|]; cbn [elem shape].
      intros idx Hidx; rewrite ?HW in Hidx.
      destruct (Hidx3 idx Hidx) as [oo [ii [kk [-> [Ho [Hii L]]]]]].
      rewrite (out_scaled_entry W o ig ks _ Hidx).
      cbn [swap01]. rewrite bindex_scale_conv by auto.
      unfold scale_at; cbn [nth length Nat.sub]; rewrite Nat.sub_0_r.
      reflexivity.
Qed.

(** C1, as amended.  For an adapter on a linear layer, on a convolution
    whose output is scaled, or on a convolution with groups = 1, with any
    entries [v] in its scale vector and any multiplier [m]:
    get_merged_weight(m) and get_diff_weight(m) both return, in the shape
    of the layer's weight, and entry by entry the merged weight is
    weight * (scale * m + 1), the diff weight is weight * (scale * m + 0)
    and weight + diff is weight + weight * (scale * m + 0), every
    operation being the one of the entries (rounded, on floats).  Where the
    arithmetic of the entries is exact (the laws of a commutative ring)
    the merged weight equals weight + diff entry by entry; on float32
    entries it need not. *)
Theorem merged_and_diff_weight_entries nm l mu ld md bp rs (ti : bool) un a0
    v m g :
  wf_layer l = true ->
  init nm l mu ld md bp rs ti un = Ok a0 ->
  match l with
  | ConvNd _ _ _ kw _ _ => ti = false \/ groups kw = 1
  | _ => True
  end ->
  let w := mkWorld (set_scale a0 v) g in
  exists W M D S,
    get_weight l = Ok W
    /\ fst (get_merged_weight m None None w) = Ok (M, None)
    /\ fst (get_diff_weight m None None w) = Ok (D, None)
    /\ tadd W D = Ok S
    /\ shape M = shape W /\ shape D = shape W /\ shape S = shape W
    /\ (forall idx, in_range (shape W) idx = true ->
          let e := v (scale_at l ti idx) * m in
          elem M idx = elem W idx * (e + rI)
          /\ elem D idx = elem W idx * (e + rO)
          /\ elem S idx = elem W idx + elem W idx * (e + rO))
    /\ (ring_theory rO rI radd rmul rsub ropp (@eq R) -> teq M S).
Proof.
  intros Hwf Hinit Hcfg w; subst w.
  destruct (make_weight_entries nm l mu ld md bp rs ti un a0 v m false g
              Hwf Hinit Hcfg) as [W [M [HW [HM [SM EM]]]]].
  destruct (make_weight_entries nm l mu ld md bp rs ti un a0 v m true g
              Hwf Hinit Hcfg) as [W' [D [HW' [HD [SD ED]]]]].
  rewrite HW in HW'; injection HW' as <-.
  exists W, M, D.
  unfold tadd, broadcast_op; rewrite SD, broadcast_shapes_refl.
  eexists; split; [exact HW|].
  split; [now rewrite get_merged_weight_run, HM|].
  split; [now rewrite get_diff_weight_run, HD|].
  split; [reflexivity|].
  split; [exact SM|]; split; [reflexivity|]; split; [reflexivity|].
  assert (HS : forall idx, in_range (shape W) idx = true ->
            elem W (bindex (shape W) idx) + elem D (bindex (shape W) idx)
            = elem W idx
              + elem W idx * (v (scale_at l ti idx) * m + rO)).
  { intros idx Hidx; now rewrite (bindex_in_range _ _ Hidx), (ED idx Hidx). }
  split.
  - intros idx Hidx; cbv zeta; cbn [elem].
    split; [exact (EM idx Hidx)|]; split; [exact (ED idx Hidx)|].
    exact (HS idx Hidx).
  - intros Hr; split; cbn [shape elem]; [exact SM|].
    intros idx Hidx; rewrite SM in Hidx.
    rewrite (HS idx Hidx), (EM idx Hidx).
    apply (scaled_plus_one Hr).
Qed.

End MergedAndDiff.

(** ** Views: row-major order *)

Lemma map_flat_map {A B C} (f : B -> C) (g : A -> list B) (l : list A) :
  map f (flat_map g l) = flat_map (fun x => map f (g x)) l.
Proof. induction l; simpl; [|rewrite map_app, IHl]; auto. Qed.

Lemma map_add_seq (a b n : nat) : map (Nat.add a) (seq b n) = seq (a + b) n.
Proof.
  revert b; induction n; intros b; simpl; auto.
  rewrite IHn; do 2 f_equal; lia.
Qed.

Lemma seq_blocks (n a d : nat) :
  flat_map (fun k => seq (k * n) n) (seq a d) = seq (a * n) (d * n).
Proof.
  revert a; induction d; intros a; simpl; auto.
  rewrite IHd, seq_app; do 2 f_equal; lia.
Qed.

Lemma ravel_all_indices (s : list nat) :
  map (ravel s) (all_indices s) = seq 0 (numel s).
Proof.
  induction s as [|d s IH]; [reflexivity|].
  change (numel (d :: s)) with (d * numel s).
  change (seq 0 (d * numel s)) with (seq (0 * numel s) (d * numel s)).
  rewrite <- seq_blocks; cbn [all_indices].
  rewrite map_flat_map; apply flat_map_ext; intros k.
  rewrite map_map; cbn [ravel].
  rewrite <- (map_map (ravel s) (Nat.add (k * numel s))), IH, map_add_seq.
  f_equal; lia.
Qed.

Lemma unravel_seq (s : list nat) :
  map (unravel s) (seq 0 (numel s)) = all_indices s.
Proof.
  induction s as [|d s IH]; [reflexivity|].
  change (numel (d :: s)) with (d * numel s).
  change (seq 0 (d * numel s)) with (seq (0 * numel s) (d * numel s)).
  rewrite <- seq_blocks, map_flat_map; cbn [all_indices].
  apply flat_map_ext; intros k.
  replace (k * numel s) with (k * numel s + 0) by lia.
  rewrite <- map_add_seq, map_map, <- IH, map_map.
  apply map_ext_in; intros j Hj; apply in_seq in Hj; cbn [unravel].
  assert (numel s <> 0) by lia.
  f_equal.
  - rewrite Nat.div_add_l, Nat.div_small by lia; lia.
  - f_equal. rewrite Nat.add_comm, Nat.Div0.mod_add, Nat.mod_small; lia.
Qed.

Section Views.
Context {K : Scalar}.

(** A view keeps every entry, in row-major order, and the device. *)
Lemma view_entries (t t' : Tensor) (s : list nat) :
  view t s = Ok t' ->
  to_list t' = to_list t /\ shape t' = s /\ device t' = device t.
Proof.
  unfold view; destruct (numel s =? numel (shape t)) eqn:E; [|discriminate].
  apply Nat.eqb_eq in E; intros [= <-]; unfold to_list; cbn.
  repeat split.
  rewrite <- (unravel_seq (shape t)), <- E, <- (ravel_all_indices s).
  now rewrite !map_map.
Qed.

(** C8.  The shape and device arguments of get_merged_weight and
    get_diff_weight change the shape and the device of what is returned and
    nothing else: the call with a target shape returns exactly when the
    call without arguments does and the shape has as many entries, the
    entries are the same in row-major order, and the device is the one
    asked for.  Neither call changes the adapter (scale vector, flags,
    wrapped layer) or the random generator. *)
Theorem shape_device_change_nothing_else (diff : bool) m sh dev w :
  let entry := if diff then get_diff_weight else get_merged_weight in
  snd (entry m sh dev w) = w
  /\ match fst (entry m None None w) with
     | Ok (base, _) =>
         let s := match sh with Some s => s | None => shape base end in
         if numel s =? numel (shape base)
         then exists t,
             fst (entry m sh dev w) = Ok (t, None)
             /\ to_list t = to_list base
             /\ shape t = s
             /\ device t = match dev with
                          | Some d => d
                          | None => device base
                          end
         else fst (entry m sh dev w) = Raise RuntimeError
     | Raise e => fst (entry m sh dev w) = Raise e
     end.
Proof.
  intros entry.
  assert (E : forall sh dev,
             entry m sh dev w
             = ((d <- fst (make_weight m sh dev diff w) ;; Ok (d, None))%result,
                w)).
  { intros; subst entry; destruct diff;
      [apply get_diff_weight_run | apply get_merged_weight_run]. }
  rewrite !E; cbn [fst snd]; split; [reflexivity|].
  rewrite (make_weight_args m sh dev).
  destruct (fst (make_weight m None None diff w)) as [base|e]; cbn; auto.
  destruct sh as [s|]; cbn.
  - destruct (numel s =? numel (shape base)) eqn:En.
    + destruct (view base s) as [t|e] eqn:Ev;
        [|unfold view in Ev; rewrite En in Ev; discriminate].
      destruct (view_entries base t s Ev) as [Hl [Hs Hd]]; cbn.
      eexists; split; [reflexivity|].
      destruct dev; cbn; unfold to_list in *; cbn; auto.
    + unfold view; rewrite En; reflexivity.
  - rewrite Nat.eqb_refl.
    eexists; split; [reflexivity|]; destruct dev; cbn; auto.
Qed.

End Views.

(** ** Forward evaluation *)

Section Forward.
Context {K : Scalar}.
Local Open Scope method_scope.

Lemma dropout_skip_run w :
  dropout_skip w =
  if truthy (module_dropout (self w)) && training (self w)
  then (Ok (Qltb (rng w 0%nat) (module_dropout (self w))),
        mkWorld (self w) (fun n => rng w (S n)))
  else (Ok false, w).
Proof.
  unfold dropout_skip, bind, get_self, rand, ret; cbn.
  destruct (truthy (module_dropout (self w)) && training (self w)); reflexivity.
Qed.

Lemma truthy_iff (p : Q) : truthy p = true <-> ~ (p == 0)%Q.
Proof.
  unfold truthy; rewrite negb_true_iff, <- not_true_iff_false, Qeq_bool_iff.
  tauto.
Qed.

Lemma Qltb_iff (u p : Q) : Qltb u p = true <-> (u < p)%Q.
Proof.
  unfold Qltb; rewrite negb_true_iff, <- not_true_iff_false, Qle_bool_iff.
  split; [apply Qnot_le_lt | apply Qlt_not_le].
Qed.

Lemma forward_run x w :
  forward x w =
  match dropout_skip w with
  | (Ok true, w') => (org_forward (self w) x, w')
  | (Ok false, w') =>
      (if bypass_mode (self w) then bypass_forward x (multiplier (self w))
       else wn <- get_merged_weight (multiplier (self w)) None None ;;
            bias <- lift (get_bias (org_module (self w))) ;;
            lift (op (self w) x (fst wn) bias)) w'
  | (Raise e, w') => (Raise e, w')
  end.
Proof.
  unfold forward at 1; unfold bind at 1, get_self at 1; cbn [self].
  unfold bind at 1; destruct (dropout_skip w) as [[[|]|e] w']; reflexivity.
Qed.

(** forward changes nothing but the generator, and the generator only
    through the draw of the guard. *)
Lemma forward_world x w : snd (forward x w) = snd (dropout_skip w).
Proof.
  rewrite forward_run.
  destruct (dropout_skip w) as [[[|]|e] w']; cbn [snd]; auto.
  destruct (bypass_mode (self w)).
  - unfold bypass_forward; now rewrite bypass_forward_run.
  - unfold bind at 1; rewrite get_merged_weight_run.
    destruct (fst (make_weight (multiplier (self w)) None None false w'));
      cbn; auto.
    unfold bind, lift; cbn.
    destruct (get_bias (org_module (self w))); reflexivity.
Qed.

(** C6.  forward takes the dropout skip, and then returns the wrapped
    layer's own output, exactly when module_dropout is not zero, the adapter
    is training and the draw is below module_dropout; otherwise it goes on
    to the bypass or the merged evaluation.  With draws in [0,1): when
    module_dropout is 1 and the adapter is training the skip is always
    taken, and when module_dropout is 0 it never is.  The call leaves the
    adapter as it was and the generator with draws in [0,1), so the same
    holds for every later call. *)
Theorem forward_dropout_skip x w :
  (forall n, 0 <= rng w n < 1)%Q ->
  let s := self w in
  let p := module_dropout s in
  exists skip w',
    dropout_skip w = (Ok skip, w')
    /\ self w' = s
    /\ (skip = true <->
        ~ (p == 0)%Q /\ training s = true /\ (rng w 0%nat < p)%Q)
    /\ forward x w =
       (if skip then (org_forward s x, w')
        else (if bypass_mode s then bypass_forward x (multiplier s)
              else wn <- get_merged_weight (multiplier s) None None ;;
                   bias <- lift (get_bias (org_module s)) ;;
                   lift (op s x (fst wn) bias)) w')
    /\ ((p == 1)%Q -> training s = true -> skip = true)
    /\ ((p == 0)%Q -> skip = false)
    /\ snd (forward x w) = w'
    /\ (forall n, 0 <= rng w' n < 1)%Q.
Proof.
  intros Hu s p.
  assert (Hw : forall skip w', dropout_skip w = (Ok skip, w') ->
            snd (forward x w) = w' /\ (forall n, 0 <= rng w' n < 1)%Q).
  { intros skip w' E; rewrite forward_world, E; split; [reflexivity|].
    rewrite dropout_skip_run in E.
    destruct (truthy (module_dropout (self w)) && training (self w));
      injection E as _ <-; cbn; auto. }
  assert (Hrun : forall skip w', dropout_skip w = (Ok skip, w') ->
            forward x w =
            (if skip then (org_forward s x, w')
             else (if bypass_mode s then bypass_forward x (multiplier s)
                   else wn <- get_merged_weight (multiplier s) None None ;;
                        bias <- lift (get_bias (org_module s)) ;;
                        lift (op s x (fst wn) bias)) w')).
  { intros skip w' E; unfold forward at 1.
    unfold bind at 1, get_self at 1; cbn [self].
    unfold bind at 1; rewrite E.
    destruct skip; reflexivity. }
  pose proof (dropout_skip_run w) as E; fold s p in E.
  destruct (truthy p && training s) eqn:G.
  - apply andb_true_iff in G as [Gp Gt].
    do 2 eexists; split; [exact E|]; split; [reflexivity|].
    rewrite Qltb_iff; split; [|split; [exact (Hrun _ _ E)|split; [|split]]].
    + rewrite <- truthy_iff; tauto.
    + intros Hp _; rewrite Hp; apply Hu.
    + intros Hp; apply truthy_iff in Gp; contradiction.
    + exact (Hw _ _ E).
  - do 2 eexists; split; [exact E|]; split; [reflexivity|].
    split; [|split; [exact (Hrun _ _ E)|split; [|split; [auto|]]]].
    + split; [discriminate|].
      intros [Hp [Ht _]]; apply truthy_iff in Hp.
      rewrite Hp, Ht in G; discriminate.
    + intros Hp Ht; exfalso.
      assert (Hp' : truthy p = true).
      { apply truthy_iff; rewrite Hp; discriminate. }
      rewrite Hp', Ht in G; discriminate.
    + exact (Hw _ _ E).
Qed.

End Forward.

Section Bypass.
Context {K : Scalar}.
Local Open Scope scalar_scope.
Local Arguments bindex : simpl never.
Local Arguments broadcast_shapes : simpl never.
Local Arguments in_range : simpl never.

(** C10, as amended.  When the output is scaled, bypass_forward(x, s) and
    bypass_forward_diff(x, s) return together (or raise the same error),
    whatever the wrapped forward computes: with out = org_forward(x), the
    bypass output is out * (scale * s + 1), the bypass diff is
    out * (scale * s + 0) and org_forward(x) + bypass_forward_diff(x, s)
    is out + out * (scale * s + 0), entry by entry, every operation being
    the one of the entries (rounded, on floats).  Where the arithmetic of
    the entries is exact (the laws of a commutative ring) the bypass
    output equals org_forward(x) + bypass_forward_diff(x, s); on float32
    entries it need not.  When the input is scaled the decomposition fails
    on a layer with a bias, beyond any rounding: on nn.Linear(1, 1) with
    weight 1 and bias 1, in float32, the bypass output at x = 0 is 1 and
    the sum is 2. *)
Theorem bypass_forward_and_diff_entries :
  (forall w x sc,
      train_input (self w) = false ->
      match fst (bypass_forward x sc w), fst (bypass_forward_diff x sc w) with
      | Ok y, Ok d =>
          exists o s,
            org_forward (self w) x = Ok o /\ tadd o d = Ok s
            /\ shape s = shape y
            /\ (forall idx, in_range (shape y) idx = true ->
                  let a := elem o (bindex (shape o) idx) in
                  let e := elem (weight (self w))
                             (bindex (shape (weight (self w))) idx) * sc in
                  elem y idx = a * (e + rI)
                  /\ elem d idx = a * (e + rO)
                  /\ elem s idx = a + a * (e + rO))
            /\ (ring_theory rO rI radd rmul rsub ropp (@eq R) -> teq y s)
      | Raise e, Raise e' => e = e'
      | _, _ => False
      end)
  /\ (exists (a : @IA3Module F32) x sc g y d o s,
        wf_layer Single.lin11_bias = true
        /\ @init F32 "ia3" Single.lin11_bias (f32 1) 4 0%Q false false true
             (fun _ => f32 0) = Ok a
        /\ (exists b, get_bias Single.lin11_bias = Ok (Some b))
        /\ fst (bypass_forward x sc (mkWorld a g)) = Ok y
        /\ fst (bypass_forward_diff x sc (mkWorld a g)) = Ok d
        /\ org_forward a x = Ok o
        /\ @tadd F32 o d = Ok s
        /\ @elem F32 y [0; 0] = f32 1
        /\ @elem F32 s [0; 0] = f32 2
        /\ ~ @teq F32 y s).
Proof.
  split.
  - intros w x sc Hout.
    unfold bypass_forward, bypass_forward_diff.
    rewrite !bypass_forward_run; cbn [fst]; rewrite Hout; cbn.
    destruct (org_forward (self w) x) as [o|e]; cbn; auto.
    unfold tmul, broadcast_op; cbn [shape tadds tmuls].
    destruct (broadcast_shapes (shape o) (shape (weight (self w))))
      as [c|] eqn:E; [|reflexivity].
    exists o; unfold tadd, broadcast_op; cbn [shape].
    rewrite (broadcast_shapes_absorb _ _ _ E).
    eexists; split; [reflexivity|]; split; [reflexivity|].
    split; [reflexivity|]; cbn [shape elem tadds tmuls].
    split.
    + intros idx Hidx; cbn zeta.
      rewrite (bindex_in_range c idx Hidx); auto.
    + intros Hr; split; cbn [shape elem]; [reflexivity|].
      intros idx Hidx; rewrite (bindex_in_range c idx Hidx).
      apply (scaled_plus_one Hr).
  - eexists. exists (Single.tensor [1; 1] [0%Z]), (f32 1), (fun _ => 0%Q).
    do 4 eexists.
    split; [reflexivity|]. split; [reflexivity|].
    split; [eexists; reflexivity|].
    split; [reflexivity|]. split; [reflexivity|].
    split; [reflexivity|]. split; [reflexivity|].
    split; [reflexivity|]. split; [reflexivity|].
    intros [_ Heq]. specialize (Heq [0; 0] eq_refl).
    vm_compute in Heq; discriminate Heq.
Qed.

End Bypass.

(** ** Bypass evaluation and merged evaluation *)





Lemma bindex_last (d j : nat) (p : list nat) :
  j < d -> bindex [d] (p ++ [j]) = [j].
Proof.
  intros H; unfold bindex.
  rewrite length_app; simpl length; rewrite Nat.add_sub.
  rewrite skipn_app, skipn_all, Nat.sub_diag; simpl.
  destruct (d =? 1) eqn:E; auto.
  apply Nat.eqb_eq in E; f_equal; lia.
Qed.










Section Evaluation.
Context {K : Scalar}.
Local Open Scope scalar_scope.
Local Arguments bindex : simpl never.
Local Arguments broadcast_shapes : simpl never.
Local Arguments in_range : simpl never.




Lemma merged_forward_run x m s w :
  fst ((wn <- get_merged_weight m None None ;;
        bias <- lift (get_bias (org_module s)) ;;
        lift (op s x (fst wn) bias))%method w)
  = (M <- fst (make_weight m None None false w) ;;
     b <- get_bias (org_module s) ;;
     op s x M b)%result.
Proof.
  unfold bind at 1; rewrite get_merged_weight_run.
  destruct (fst (make_weight m None None false w)) as [M|e]; cbn; auto.
  unfold bind, lift; cbn.
  destruct (get_bias (org_module s)); reflexivity.
Qed.



Lemma forward_value x w :
  fst (forward x w) =
  let s := self w in
  let rest :=
    if bypass_mode s then fst (bypass_forward x (multiplier s) w)
    else (M <- fst (make_weight (multiplier s) None None false w) ;;
          b <- get_bias (org_module s) ;;
          op s x M b)%result in
  if truthy (module_dropout s) && training s
  then if Qltb (rng w 0%nat) (module_dropout s) then org_forward s x else rest
  else rest.
Proof.
  rewrite forward_run, dropout_skip_run; cbn zeta.
  destruct (truthy (module_dropout (self w)) && training (self w));
    [destruct (Qltb (rng w 0%nat) (module_dropout (self w)))|];
    try reflexivity;
    (destruct (bypass_mode (self w));
     [unfold bypass_forward; now rewrite !bypass_forward_run
     |now rewrite !merged_forward_run, !make_weight_plain]).
Qed.

Local Arguments tmul : simpl never.
Local Arguments tadds : simpl never.
Local Arguments tmuls : simpl never.
Local Arguments transpose01 : simpl never.
Local Arguments F_linear : simpl never.
Local Arguments F_conv : simpl never.
Local Arguments truthy : simpl never.
Local Arguments Qltb : simpl never.

End Evaluation.

Section Multiplier.
Context {K : Scalar}.
Hypothesis Kring : ring_theory rO rI radd rmul rsub ropp (@eq R).
Add Ring Kring_mult : Kring.
Local Open Scope scalar_scope.
Local Arguments bindex : simpl never.
Local Arguments broadcast_shapes : simpl never.
Local Arguments in_range : simpl never.


End Multiplier.

(** ** Reading only the entries of the shape *)


Section Congruence.
Context {K : Scalar}.
Local Arguments bindex : simpl never.
Local Arguments broadcast_shapes : simpl never.
Local Arguments in_range : simpl never.
Local Open Scope scalar_scope.



Lemma teq_sym (a b : Tensor) : teq a b -> teq b a.
Proof.
  intros [S H]; split; [auto|]; intros idx Hidx; symmetry; apply H.
  now rewrite S.
Qed.

Lemma teq_trans (a b c : Tensor) : teq a b -> teq b c -> teq a c.
Proof.
  intros [S1 H1] [S2 H2]; split; [congruence|].
  intros idx Hidx; rewrite H1 by exact Hidx; apply H2; now rewrite <- S1.
Qed.

Lemma agree_trans (a b c : result Tensor) : agree a b -> agree b c -> agree a c.
Proof.
  destruct a, b, c; cbn; try tauto; try congruence.
  apply teq_trans.
Qed.

Lemma agree_sym (a b : result Tensor) : agree a b -> agree b a.
Proof. destruct a, b; cbn; auto using teq_sym. Qed.












End Congruence.

(** ** The adapter switched off *)

Section Identity.
Context {K : Scalar}.
Hypothesis Kring : ring_theory rO rI radd rmul rsub ropp (@eq R).
Add Ring Kring_id : Kring.
Local Open Scope scalar_scope.
Local Arguments bindex : simpl never.
Local Arguments broadcast_shapes : simpl never.
Local Arguments in_range : simpl never.







Section Off.
Variables (sc : Tensor) (m : R).
Hypothesis Hz : forall idx, elem sc idx * m = rO.
Let eff := tadds (tmuls sc m) rI.









End Off.

Local Arguments tmul : simpl never.
Local Arguments tadds : simpl never.
Local Arguments tmuls : simpl never.
Local Arguments transpose01 : simpl never.
Local Arguments F_linear : simpl never.
Local Arguments F_conv : simpl never.
Local Arguments conv_forward : simpl never.
Local Arguments truthy : simpl never.
Local Arguments Qltb : simpl never.




End Identity.

(** ** A view to the shape the tensor has *)

Lemma ravel_lt (s idx : list nat) :
  in_range s idx = true -> ravel s idx < numel s.
Proof.
  revert idx; induction s as [|d s IH]; intros [|k idx]; simpl;
    try discriminate; [lia|].
  rewrite andb_true_iff, Nat.ltb_lt; intros [Hk H].
  specialize (IH _ H); fold (numel s); nia.
Qed.

Lemma unravel_ravel (s idx : list nat) :
  in_range s idx = true -> unravel s (ravel s idx) = idx.
Proof.
  revert idx; induction s as [|d s IH]; intros [|k idx]; simpl;
    try discriminate; auto.
  rewrite andb_true_iff; intros [Hk H]; fold (numel s).
  pose proof (ravel_lt _ _ H) as Hr.
  assert (E1 : (k * numel s + ravel s idx) / numel s = k)
    by (rewrite Nat.div_add_l, Nat.div_small by lia; lia).
  assert (E2 : (k * numel s + ravel s idx) mod numel s = ravel s idx)
    by (rewrite (Nat.add_comm (k * numel s)), Nat.Div0.mod_add;
        apply Nat.mod_small; exact Hr).
  rewrite E1, E2, IH by exact H; reflexivity.
Qed.

Section OwnShape.
Context {K : Scalar}.

Lemma view_own_shape (t : Tensor) :
  exists t', view t (shape t) = Ok t' /\ teq t' t /\ device t' = device t.
Proof.
  unfold view; rewrite Nat.eqb_refl; eexists; split; [reflexivity|].
  split; [|reflexivity]; split; cbn; [reflexivity|].
  intros idx Hidx; now rewrite unravel_ravel.
Qed.

End OwnShape.

Section OwnShapeApi.
Context {K : Scalar}.
Local Arguments bindex : simpl never.
Local Arguments broadcast_shapes : simpl never.
Local Arguments in_range : simpl never.

(** On the layers the merge path supports, make_weight returns a tensor of
    the weight's shape. *)
Lemma make_weight_shape nm l mu ld md bp rs (ti : bool) un a v m diff g :
  wf_layer l = true ->
  init nm l mu ld md bp rs ti un = Ok a ->
  match l with
  | ConvNd _ _ _ kw _ _ => ti = false \/ groups kw = 1
  | _ => True
  end ->
  exists W base,
    get_weight l = Ok W
    /\ fst (make_weight m None None diff (mkWorld (set_scale a v) g)) = Ok base
    /\ shape base = shape W.
Proof.
  intros Hwf Ha Hcfg; apply init_inv in Ha.
  rewrite make_weight_plain.
  destruct l as [i o W b|d i o kw W b|k f]; [| |contradiction]; subst a;
    exists W.
  - apply wf_linear_inv in Hwf as [HW _]; cbn.
    destruct ti; cbn.
    + unfold tmul, broadcast_op; cbn. rewrite HW, broadcast_linear.
      eexists; repeat split.
    + rewrite (out_scaled W (mkTensor [o] v CPU) m _ o i [] HW
                 (broadcast_linear i o)).
      eexists; repeat split; cbn; now rewrite HW.
  - apply wf_conv_inv in Hwf as [ig [ks [HW [Hg [Hi _]]]]]; cbn.
    rewrite HW; cbn [skipn].
    destruct ti; cbn.
    + destruct Hcfg as [?|E]; [discriminate|].
      rewrite E, Nat.mul_1_r in Hi; subst ig.
      unfold tmul, broadcast_op; cbn. rewrite HW, broadcast_conv.
      eexists; repeat split.
    + rewrite (out_scaled W (mkTensor (1 :: o :: map (fun _ => 1) ks) v CPU)
                 m _ o ig ks HW (broadcast_conv ig o ks)).
      eexists; repeat split; cbn; now rewrite HW.
Qed.

(** Asking for the weight's own shape, the usual call, changes nothing:
    get_merged_weight(m, shape=org_weight.shape, device) and
    get_diff_weight(m, shape=org_weight.shape, device) return, index by
    index, the tensor the call without a shape returns, on the device asked
    for.  (Linear layers, output-scaled convolutions, convolutions with
    groups = 1.) *)
Theorem own_shape_argument_is_noop
    (diff : bool) nm l mu ld md bp rs (ti : bool) un a v m dev g :
  wf_layer l = true ->
  init nm l mu ld md bp rs ti un = Ok a ->
  match l with
  | ConvNd _ _ _ kw _ _ => ti = false \/ groups kw = 1
  | _ => True
  end ->
  let w := mkWorld (set_scale a v) g in
  let entry := if diff then get_diff_weight else get_merged_weight in
  exists W base t,
    get_weight l = Ok W
    /\ fst (entry m None None w) = Ok (base, None)
    /\ fst (entry m (Some (shape W)) dev w) = Ok (t, None)
    /\ teq t base
    /\ device t = match dev with Some d => d | None => device base end.
Proof.
  intros Hwf Ha Hcfg w entry.
  destruct (make_weight_shape nm l mu ld md bp rs ti un a v m diff g
              Hwf Ha Hcfg) as [W [base [EW [Eb Sb]]]].
  assert (E : forall sh dev,
             fst (entry m sh dev w)
             = (d <- fst (make_weight m sh dev diff w) ;; Ok (d, None))%result).
  { intros; subst entry; destruct diff;
      [rewrite get_diff_weight_run | rewrite get_merged_weight_run];
      reflexivity. }
  exists W, base.
  rewrite !E, (make_weight_args m (Some (shape W)) dev); subst w.
  rewrite Eb; cbn [rbind]; rewrite <- Sb.
  destruct (view_own_shape base) as [t [Ev [T D]]]; rewrite Ev; cbn [rbind].
  destruct dev as [dv|]; eexists; repeat split; cbn; auto; apply T.
Qed.

End OwnShapeApi.

(** ** Attaching: one apply_to, and a second one *)

Section AttachProperties.
Context {K : Scalar}.
Local Open Scope scalar_scope.

(** After one apply_to, calling the layer runs the adapter's forward with
    the layer's own forward behind it: the call returns what [forward]
    returns and leaves the generator where [forward] leaves it, and
    self.org_forward still reaches the class's forward. *)
Theorem attached_layer_runs_adapter_forward (a : IA3Module) g x d :
  org_forward a = layer_forward (org_module a) ->
  let s := apply_to (constructed a g) in
  layer_forward_attr s = AdapterForward
  /\ org_forward_ref s = ClassForward
  /\ call (S (S d)) (layer_forward_attr s) s x
     = Some (fst (forward x (mkWorld a g)),
             mkAttached a ClassForward AdapterForward
               (rng (snd (forward x (mkWorld a g)))))
  /\ call (S d) (org_forward_ref s) s x
     = Some (layer_forward (org_module a) x, s).
Proof.
  intros Ho s; subst s; repeat split.
  rewrite forward_value, forward_world, dropout_skip_run.
  unfold bypass_forward; rewrite bypass_forward_run, make_weight_plain.
  cbn [apply_to constructed adapter org_forward_ref layer_forward_attr gen
       call self rng fst snd draw].
  rewrite Ho.
  destruct (truthy (module_dropout a) && training a);
    [destruct (Qltb (g 0%nat) (module_dropout a)); [reflexivity|]|];
    (destruct (bypass_mode a);
     [destruct (train_input a); cbn [fst snd rng self];
      [destruct (tmul x _); reflexivity
      |destruct (layer_forward (org_module a) x); reflexivity]
     |rewrite get_merged_weight_run, !make_weight_plain;
      cbn [fst snd rng self];
      match goal with |- Some (rbind (rbind ?r _) _, _) = _ => destruct r end;
      reflexivity]).
Qed.

Lemma bdim_absorb_l (x y d : nat) : bdim x y = Some d -> bdim d y = Some d.
Proof.
  unfold bdim; destruct (x =? y) eqn:E1.
  - intros [= ?]; subst; now rewrite ?E1.
  - destruct (x =? 1) eqn:E2.
    + intros [= ?]; subst; now rewrite ?Nat.eqb_refl.
    + destruct (y =? 1) eqn:E3; [|discriminate].
      intros [= ?]; subst; now rewrite ?E1, ?E2, ?E3.
Qed.

Lemma bzip_absorb_l (a b c : list nat) : bzip a b = Some c -> bzip c b = Some c.
Proof.
  revert b c; induction a as [|x a IH]; intros [|y b] c; simpl;
    try discriminate.
  { intros [= <-]; reflexivity. }
  destruct (bdim x y) as [d|] eqn:Ed; [|discriminate].
  destruct (bzip a b) as [r|] eqn:E; [|discriminate].
  intros [= <-]; simpl.
  now rewrite (bdim_absorb_l _ _ _ Ed), (IH _ _ E).
Qed.

Lemma broadcast_shapes_absorb_l (a b c : list nat) :
  broadcast_shapes a b = Some c -> broadcast_shapes c b = Some c.
Proof.
  intros H; pose proof (broadcast_shapes_length _ _ _ H) as L.
  unfold broadcast_shapes in *.
  replace (Nat.max (length c) (length b)) with (length c) by lia.
  rewrite pad_left_full, L.
  now apply bzip_absorb_l with (a := pad_left (Nat.max (length a) (length b)) a).
Qed.

Lemma adapter_forward_recurses (a : IA3Module) :
  bypass_mode a = true ->
  forall depth x g,
    (train_input a = true ->
     broadcast_shapes (shape x) (shape (weight a)) <> None) ->
    call depth AdapterForward (mkAttached a AdapterForward AdapterForward g) x
    = None.
Proof.
  intros Hb depth.
  induction depth as [|d IH]; intros x g Hx; [reflexivity|].
  cbn [call adapter org_forward_ref gen draw layer_forward_attr].
  rewrite Hb.
  assert (Hrest : forall g',
             (if train_input a
              then match tmul x (tadds (tmuls (weight a) (multiplier a))
                                   (promote (int (negb false)))) with
                   | Ok x' =>
                       call d AdapterForward
                         (mkAttached a AdapterForward AdapterForward g') x'
                   | Raise e =>
                       Some (Raise e,
                             mkAttached a AdapterForward AdapterForward g')
                   end
              else match call d AdapterForward
                           (mkAttached a AdapterForward AdapterForward g') x
                   with
                   | Some (Ok out, s') =>
                       Some (tmul out (tadds (tmuls (weight a) (multiplier a))
                                         (promote (int (negb false)))), s')
                   | r => r
                   end) = None).
  { intros g'; destruct (train_input a) eqn:Et.
    - specialize (Hx eq_refl).
      unfold tmul, broadcast_op; cbn [shape tadds tmuls].
      destruct (broadcast_shapes (shape x) (shape (weight a))) as [c|] eqn:E;
        [|contradiction].
      apply IH; intros _; cbn [shape].
      now rewrite (broadcast_shapes_absorb_l _ _ _ E).
    - rewrite IH; [reflexivity | discriminate]. }
  destruct (truthy (module_dropout a) && training a);
    [destruct (Qltb (g 0%nat) (module_dropout a))|];
    unfold draw; cbn [adapter org_forward_ref layer_forward_attr gen];
    first [apply IH; exact Hx | apply Hrest].
Qed.

(** apply_to is to be called once.  After a second call self.org_forward is
    the adapter's own forward, and in bypass mode every call of the layer
    runs out of frames (RecursionError), whatever the depth allowed: the
    bypass path and the dropout skip both call self.org_forward.  (For an
    input-scaled adapter, on inputs that broadcast against the scale
    vector; otherwise the product of line 111 raises first.) *)
Theorem second_apply_to_recurses (a : IA3Module) g x :
  bypass_mode a = true ->
  (train_input a = true ->
   broadcast_shapes (shape x) (shape (weight a)) <> None) ->
  let s := apply_to (apply_to (constructed a g)) in
  org_forward_ref s = AdapterForward
  /\ forall depth, call depth (layer_forward_attr s) s x = None.
Proof.
  intros Hb Hx s; subst s; split; [reflexivity|].
  intros depth; exact (adapter_forward_recurses a Hb depth x g Hx).
Qed.

End AttachProperties.

(** ** Where the merge path stops: grouped convolutions, input scaled *)

Lemma bdim_mismatch (x y : nat) : x <> y -> x <> 1 -> y <> 1 -> bdim x y = None.
Proof.
  intros H1 H2 H3; unfold bdim.
  apply Nat.eqb_neq in H1, H2, H3; now rewrite H1, H2, H3.
Qed.

Section Grouped.
Context {K : Scalar}.
Local Open Scope scalar_scope.
Local Arguments bindex : simpl never.
Local Arguments broadcast_shapes : simpl never.
Local Arguments in_range : simpl never.

Lemma broadcast_conv_mismatch (o ig i : nat) (ks : list nat) :
  ig <> i -> ig <> 1 -> i <> 1 ->
  broadcast_shapes (o :: ig :: ks) (1 :: i :: map (fun _ => 1) ks) = None.
Proof.
  intros H1 H2 H3.
  rewrite broadcast_shapes_same_length by (cbn; now rewrite length_map).
  cbn; now rewrite bdim_1_r, (bdim_mismatch ig i).
Qed.

Lemma broadcast_conv_depthwise (o i : nat) (ks : list nat) :
  broadcast_shapes (o :: 1 :: ks) (1 :: i :: map (fun _ => 1) ks)
  = Some (o :: i :: ks).
Proof.
  rewrite broadcast_shapes_same_length by (cbn; now rewrite length_map).
  cbn; now rewrite bdim_1_r, bdim_1_l, bzip_ones_r.
Qed.

Lemma make_weight_mismatch m (diff : bool) w (W : Tensor) o ig i ks :
  get_weight (org_module (self w)) = Ok W ->
  train_input (self w) = true ->
  shape W = o :: ig :: ks ->
  shape (weight (self w)) = 1 :: i :: map (fun _ => 1) ks ->
  ig <> i -> ig <> 1 -> i <> 1 ->
  fst (make_weight m None None diff w) = Raise RuntimeError.
Proof.
  intros HW Ht HsW Hsw H1 H2 H3.
  rewrite make_weight_plain; cbn zeta; rewrite HW, Ht; cbn [rbind].
  unfold tmul, broadcast_op; cbn [shape tadds tmuls].
  now rewrite HsW, Hsw, broadcast_conv_mismatch.
Qed.

(** On a convolution with groups > 1 whose input is scaled, the weight has
    in_channels / groups entries on axis 1 and the scale vector
    in_channels.  With 1 < in_channels / groups the product of line 88 does
    not broadcast: get_merged_weight and get_diff_weight raise for every
    multiplier and scale vector, and so does forward in merge mode.  With
    in_channels / groups = 1 (depthwise) the product broadcasts to a
    tensor with in_channels entries on axis 1, which is not the weight's
    shape. *)
Theorem grouped_input_scaling_cannot_merge
    nm d i o kw (W : Tensor) b mu ld rs un a v m g :
  wf_layer (ConvNd d i o kw W b) = true ->
  1 < groups kw ->
  init nm (ConvNd d i o kw W b) mu ld 0%Q false rs true un = Ok a ->
  let w := mkWorld (set_scale a v) g in
  (groups kw < i ->
   fst (get_merged_weight m None None w) = Raise RuntimeError
   /\ fst (get_diff_weight m None None w) = Raise RuntimeError
   /\ forall x, fst (forward x w) = Raise RuntimeError)
  /\ (groups kw = i ->
      exists M,
        fst (get_merged_weight m None None w) = Ok (M, None)
        /\ shape M = o :: i :: skipn 2 (shape W)
        /\ shape M <> shape W).
Proof.
  intros Hwf Hg Ha w; apply init_inv in Ha; subst a.
  apply wf_conv_inv in Hwf as [ig [ks [HW [_ [Hi _]]]]].
  assert (Hsw : shape (weight (self w)) = 1 :: i :: map (fun _ => 1) ks).
  { subst w; cbn; now rewrite HW. }
  split.
  - intros Hlt.
    assert (Hmw : forall m' diff,
               fst (make_weight m' None None diff w) = Raise RuntimeError).
    { intros m' diff.
      apply (make_weight_mismatch m' diff w W o ig i ks);
        [reflexivity|reflexivity|exact HW|exact Hsw|nia|nia|nia]. }
    repeat split.
    + now rewrite get_merged_weight_run, Hmw.
    + now rewrite get_diff_weight_run, Hmw.
    + intros x; rewrite forward_value; cbn zeta.
      replace (bypass_mode (self w)) with false by reflexivity.
      rewrite Hmw; cbn [rbind].
      replace (truthy (module_dropout (self w))) with false by reflexivity.
      reflexivity.
  - intros He.
    assert (ig = 1) by nia; subst ig.
    rewrite get_merged_weight_run, make_weight_plain; cbn zeta.
    replace (get_weight (org_module (self w))) with (Ok W) by reflexivity.
    replace (train_input (self w)) with true by reflexivity.
    cbn [rbind]; unfold tmul, broadcast_op; cbn [shape tadds tmuls].
    rewrite HW, Hsw, broadcast_conv_depthwise; cbn [rbind fst].
    eexists; split; [reflexivity|]; split; [reflexivity|].
    cbn [shape skipn]; intros [= E]; lia.
Qed.

End Grouped.

Section Draws.
Context {K : Scalar}.

(** forward draws from the generator once when module_dropout is set and
    the adapter is training, and not at all otherwise (in eval mode, or
    with module_dropout = 0, the generator is left untouched); it never
    changes the adapter, whichever path it takes and whether it returns or
    raises. *)
Theorem forward_draws_at_most_once x w :
  snd (forward x w)
  = if truthy (module_dropout (self w)) && training (self w)
    then mkWorld (self w) (fun n => rng w (S n))
    else w.
Proof.
  rewrite forward_world, dropout_skip_run.
  destruct (truthy (module_dropout (self w)) && training (self w));
    reflexivity.
Qed.

End Draws.

(** ** Merge mode and the layer's padding_mode *)

Section Padding.
Context {K : Scalar}.
Local Open Scope scalar_scope.


Local Arguments F_conv : simpl never.
Local Arguments conv_forward : simpl never.
Local Arguments tmul : simpl never.
Local Arguments transpose01 : simpl never.
Local Arguments truthy : simpl never.
Local Arguments Qltb : simpl never.


End Padding.

(** * The properties on float32 layers *)

Module FloatChecks.
Import Samples.
#[local] Existing Instance F32.

(** C1 in float32, on nn.Linear(3, 2) with the output scaled by 1.0 and the
    multiplier 2^24: the merged weight at (0, 2) is
    3 * (1 * 2^24 + 1) = 3 * 2^24 = 50331648, since 2^24 + 1 rounds to 2^24,
    while weight + diff is 3 + 3 * 2^24, which rounds to 50331652. *)
Lemma merged_weight_differs_from_sum_in_float32 :
  let w := mkWorld (set_scale (Single.fresh Single.lin32 false) Single.ones)
             zero_draws in
  exists W M D S,
    get_weight Single.lin32 = Ok W
    /\ fst (get_merged_weight Single.two24 None None w) = Ok (M, None)
    /\ fst (get_diff_weight Single.two24 None None w) = Ok (D, None)
    /\ @tadd F32 W D = Ok S
    /\ @elem F32 M [0; 2] = f32 50331648
    /\ @elem F32 S [0; 2] = f32 50331652
    /\ ~ @teq F32 M S.
Proof.
  do 4 eexists.
  split; [reflexivity|]. split; [reflexivity|]. split; [reflexivity|].
  split; [reflexivity|]. split; [reflexivity|]. split; [reflexivity|].
  intros [_ Heq]. specialize (Heq [0; 2] eq_refl).
  vm_compute in Heq; discriminate Heq.
Qed.

(** C1 as amended, on the same float32 adapter. *)
Lemma merged_and_diff_weight_entries_witness :
  let w := mkWorld (set_scale (Single.fresh Single.lin32 false) Single.ones)
             zero_draws in
  exists W M D S,
    get_weight Single.lin32 = Ok W
    /\ fst (get_merged_weight Single.two24 None None w) = Ok (M, None)
    /\ fst (get_diff_weight Single.two24 None None w) = Ok (D, None)
    /\ @tadd F32 W D = Ok S
    /\ @shape F32 M = @shape F32 W /\ @shape F32 D = @shape F32 W
    /\ @shape F32 S = @shape F32 W
    /\ (forall idx, in_range (@shape F32 W) idx = true ->
          let e := SFmul 24 128
                     (Single.ones (scale_at Single.lin32 false idx))
                     Single.two24 in
          @elem F32 M idx
          = SFmul 24 128 (@elem F32 W idx) (SFadd 24 128 e (f32 1))
          /\ @elem F32 D idx
             = SFmul 24 128 (@elem F32 W idx) (SFadd 24 128 e (S754_zero false))
          /\ @elem F32 S idx
             = SFadd 24 128 (@elem F32 W idx)
                 (SFmul 24 128 (@elem F32 W idx)
                    (SFadd 24 128 e (S754_zero false))))
    /\ (ring_theory (S754_zero false) (f32 1) (SFadd 24 128) (SFmul 24 128)
          (SFsub 24 128) SFopp (@eq spec_float) -> @teq F32 M S).
Proof.
  exact (@merged_and_diff_weight_entries F32 "ia3" Single.lin32 (f32 1) 4 0%Q
           false false false (fun _ => f32 0)
           (Single.fresh Single.lin32 false) Single.ones Single.two24
           zero_draws eq_refl eq_refl I).
Defined.

(** C10 in float32, on nn.Linear(3, 2) with the output scaled by 1.0 and
    s = 2^24, at the input (0, 0, 1): org_forward gives (3, 6), the bypass
    output at (0, 0) is 3 * (1 * 2^24 + 1) = 50331648, and
    org_forward + bypass_forward_diff is 3 + 3 * 2^24, which rounds to
    50331652. *)
Lemma bypass_forward_differs_from_sum_in_float32 :
  let w := mkWorld (set_scale (Single.fresh Single.lin32 false) Single.ones)
             zero_draws in
  train_input (self w) = false
  /\ exists y d o s,
       fst (bypass_forward Single.x_unit Single.two24 w) = Ok y
       /\ fst (bypass_forward_diff Single.x_unit Single.two24 w) = Ok d
       /\ org_forward (self w) Single.x_unit = Ok o
       /\ @tadd F32 o d = Ok s
       /\ @elem F32 y [0; 0] = f32 50331648
       /\ @elem F32 s [0; 0] = f32 50331652
       /\ ~ @teq F32 y s.
Proof.
  split; [reflexivity|].
  do 4 eexists.
  split; [reflexivity|]. split; [reflexivity|]. split; [reflexivity|].
  split; [reflexivity|]. split; [reflexivity|]. split; [reflexivity|].
  intros [_ Heq]. specialize (Heq [0; 0] eq_refl).
  vm_compute in Heq; discriminate Heq.
Qed.

End FloatChecks.

(** * The properties on sample layers *)

Module Checks.
Import Samples.
Local Open Scope Z_scope.



(** C9 on nn.Conv2d(2, 3, (1, 2)) with the input scaled. *)
Lemma init_scale_vector_witness :
  shape (weight (fresh conv2d_23 true)) = [1; 2; 1; 1]%nat
  /\ (forall idx, elem (weight (fresh conv2d_23 true)) idx = 0)
  /\ train_input (fresh conv2d_23 true) = true
  /\ on_input (fresh conv2d_23 true) = 1.
Proof.
  exact (init_scale_vector "ia3" conv2d_23 1 4 0%Q false false true junk
           (fresh conv2d_23 true) eq_refl eq_refl).
Defined.

(** C6 on a generator that always draws 0. *)
Lemma forward_dropout_skip_witness :
  exists skip w',
    dropout_skip (mkWorld (fresh lin32 false) zero_draws) = (Ok skip, w')
    /\ skip = false.
Proof.
  destruct (forward_dropout_skip x_lin (mkWorld (fresh lin32 false) zero_draws))
    as [skip [w' [E [_ [_ [_ [_ [H0 _]]]]]]]].
  - intros n; split; [apply Qle_refl | reflexivity].
  - exists skip, w'; split; [exact E | apply H0; reflexivity].
Defined.

(** C3 on nn.Linear(3, 2) with the output scaled. *)
Lemma make_weight_scales_channel_witness :
  let w := mkWorld (set_scale (fresh lin32 false)
                      (elem (of_list [2%nat] [10; 20]))) zero_draws in
  exists M,
    fst (make_weight 2 None None false w) = Ok M
    /\ shape M = [2; 3]%nat
    /\ forall oo ii, (oo < 2)%nat -> (ii < 3)%nat ->
         elem M [oo; ii]
         = elem (of_list [2; 3]%nat [1; 2; 3; 4; 5; 6]) [oo; ii]
           * (elem (of_list [2%nat] [10; 20]) [oo] * 2 + 1).
Proof.
  exact (proj2 (make_weight_scales_channel "ia3" lin32 1 4 0%Q false
                  false false junk (fresh lin32 false)
                  (elem (of_list [2%nat] [10; 20])) 2 false zero_draws
                  eq_refl eq_refl)).
Defined.


(** C5, the grouped convolution.  On nn.Conv1d(4, 4, 1, groups=2) with the
    input scaled, the weight has shape (4, 2, 1) and the scale vector
    (1, 4, 1): the product of line 88 does not broadcast and
    get_diff_weight raises.  On the depthwise nn.Conv1d(2, 2, 1, groups=2)
    the weight (2, 1, 1) broadcasts against (1, 2, 1) and the diff weight
    comes out with shape (2, 2, 1), which is not the weight's. *)
Lemma grouped_conv_diff_weight_not_zero_tensor :
  fst (get_diff_weight 1 None None
         (mkWorld (fresh conv1d_grouped true) zero_draws)) = Raise RuntimeError
  /\ show (d <- fst (get_diff_weight 1 None None
                       (mkWorld (fresh conv1d_depthwise true) zero_draws)) ;;
           Ok (fst d))%result
     = Ok ([2; 2; 1]%nat, [0; 0; 0; 0])
  /\ show (get_weight conv1d_depthwise) = Ok ([2; 1; 1]%nat, [3; 5]).
Proof. repeat split. Qed.

(** C2, the grouped convolution.  On nn.Conv1d(4, 4, 1, groups=2) with the
    input scaled by (11, 21, 31, 41), the bypass evaluation returns the
    convolution of the scaled input, and the merged evaluation raises,
    since its merged weight cannot be formed. *)
Lemma grouped_conv_bypass_returns_merge_raises :
  let a := trained conv1d_grouped true [10; 20; 30; 40] in
  show (run_on a (bypass_forward x_grouped 1))
  = Ok ([1; 4; 2]%nat, [137; 190; 285; 402; 2497; 2898; 3381; 3926])
  /\ show (run_on a (forward x_grouped)) = Raise RuntimeError
  /\ show (run_on a (m <- get_merged_weight 1 None None ;; ret (fst m))%method)
     = Raise RuntimeError.
Proof. repeat split. Qed.

(** Why the inputs of a convolution are taken with their batch axis: the
    scale vector has shape (1, C, 1, ...), so on an input (C, L) the bypass
    output has one more axis, of size 1, than the merged output. *)
Lemma unbatched_conv_input_shapes :
  let a := trained conv1d_22 true [10; 20] in
  show (run_on a (bypass_forward x_unbatched 1))
  = Ok ([1; 2; 2]%nat, [727; 907; 1615; 2051])
  /\ show (run_on a (forward x_unbatched))
     = Ok ([2; 2]%nat, [727; 907; 1615; 2051]).
Proof. repeat split. Qed.




(** The weight's own shape on nn.Conv2d(2, 3, (1, 2)), moved to cuda:0. *)
Lemma own_shape_argument_is_noop_witness :
  let w := mkWorld (set_scale (fresh conv2d_23 false)
                      (elem (of_list [1; 3; 1; 1]%nat [10; 20; 30])))
             zero_draws in
  exists W base t,
    get_weight conv2d_23 = Ok W
    /\ fst (get_merged_weight 2 None None w) = Ok (base, None)
    /\ fst (get_merged_weight 2 (Some (shape W)) (Some (CUDA 0)) w)
       = Ok (t, None)
    /\ teq t base
    /\ device t = CUDA 0.
Proof.
  exact (own_shape_argument_is_noop false "ia3" conv2d_23 1 4 0%Q false false
           false junk (fresh conv2d_23 false)
           (elem (of_list [1; 3; 1; 1]%nat [10; 20; 30])) 2 (Some (CUDA 0))
           zero_draws eq_refl eq_refl (or_introl eq_refl)).
Defined.

(** One apply_to on a fresh adapter of nn.Linear(3, 2). *)
Lemma attached_layer_runs_adapter_forward_witness :
  let s := apply_to (constructed (fresh lin32 false) zero_draws) in
  layer_forward_attr s = AdapterForward
  /\ org_forward_ref s = ClassForward
  /\ call 2 (layer_forward_attr s) s x_lin
     = Some (fst (forward x_lin (mkWorld (fresh lin32 false) zero_draws)),
             mkAttached (fresh lin32 false) ClassForward AdapterForward
               (rng (snd (forward x_lin
                            (mkWorld (fresh lin32 false) zero_draws)))))
  /\ call 1 (org_forward_ref s) s x_lin
     = Some (layer_forward (org_module (fresh lin32 false)) x_lin, s).
Proof.
  exact (attached_layer_runs_adapter_forward (fresh lin32 false) zero_draws
           x_lin 0 eq_refl).
Defined.

(** Two apply_to on a bypass-mode adapter of nn.Linear(3, 2). *)
Lemma second_apply_to_recurses_witness :
  let s := apply_to (apply_to (constructed (fresh_bypass lin32 false)
                                 zero_draws)) in
  org_forward_ref s = AdapterForward
  /\ forall depth, call depth (layer_forward_attr s) s x_lin = None.
Proof.
  apply (second_apply_to_recurses (fresh_bypass lin32 false) zero_draws x_lin);
    [reflexivity | discriminate].
Defined.

(** nn.Conv1d(4, 4, 1, groups=2) with its input scaled: two of the four
    input channels per group, so nothing can be merged. *)
Lemma grouped_input_scaling_cannot_merge_witness :
  let w := mkWorld (set_scale (fresh conv1d_grouped true)
                      (elem (of_list [1; 4; 1]%nat [10; 20; 30; 40])))
             zero_draws in
  ((groups (unit_kw 1 2) < 4)%nat ->
   fst (get_merged_weight 1 None None w) = Raise RuntimeError
   /\ fst (get_diff_weight 1 None None w) = Raise RuntimeError
   /\ forall x, fst (forward x w) = Raise RuntimeError)
  /\ (groups (unit_kw 1 2) = 4%nat ->
      exists M,
        fst (get_merged_weight 1 None None w) = Ok (M, None)
        /\ shape M
           = 4%nat :: 4%nat
               :: skipn 2 (shape (of_list [4; 2; 1]%nat
                                    [1; 2; 3; 4; 5; 6; 7; 8]))
        /\ shape M <> shape (of_list [4; 2; 1]%nat [1; 2; 3; 4; 5; 6; 7; 8])).
Proof.
  exact (grouped_input_scaling_cannot_merge "ia3" Conv1 4 4 (unit_kw 1 2)
           (of_list [4; 2; 1]%nat [1; 2; 3; 4; 5; 6; 7; 8]) None 1 4 false
           junk (fresh conv1d_grouped true)
           (elem (of_list [1; 4; 1]%nat [10; 20; 30; 40])) 1 zero_draws
           eq_refl (le_n 2%nat) eq_refl).
Defined.


(** What that costs on the circular layer: a freshly built adapter in
    bypass mode returns the layer's own output, in merge mode the output
    of the zero-padded convolution, which differs at the borders. *)
Lemma circular_padding_merge_output :
  show (layer_forward conv1d_circular x_conv)
  = Ok ([1; 2; 4]%nat, [39; 37; 47; 39; 95; 85; 111; 95])
  /\ show (fst (forward x_conv
                  (mkWorld (fresh_bypass conv1d_circular true) zero_draws)))
     = Ok ([1; 2; 4]%nat, [39; 37; 47; 39; 95; 85; 111; 95])
  /\ show (fst (forward x_conv
                  (mkWorld (fresh conv1d_circular true) zero_draws)))
     = Ok ([1; 2; 4]%nat, [18; 37; 47; 21; 38; 85; 111; 57]).
Proof. repeat split. Qed.

End Checks.
